(** * Transaction core of libbitcoin (src/src/transaction.cpp)

    A shallow embedding of the transaction model, the merkle tree builder,
    the finality and coinbase rules and the greedy coin selection.

    Fixed-width unsigned integers are modelled as [Z]; every C++ operation
    that can leave the range of its type writes its wrap-around out
    ([wrap32], [wrap64]).  Digests and byte buffers are lists of bytes. *)

From Stdlib Require Import ZArith List Bool Lia Permutation Sorted.
From Stdlib Require Strings.Byte.
From Stdlib Require Import Ascii.
From Stdlib Require DecimalN.
Import ListNotations.

Local Open Scope Z_scope.

(** ** Machine integers *)

Definition u32_max : Z := 2 ^ 32 - 1.  (* std::numeric_limits<uint32_t>::max() *)

Definition wrap32 (z : Z) : Z := z mod 2 ^ 32.
Definition wrap64 (z : Z) : Z := z mod 2 ^ 64.

Definition is_u32 (z : Z) : Prop := 0 <= z < 2 ^ 32.
Definition is_u64 (z : Z) : Prop := 0 <= z < 2 ^ 64.

(** ** Data model (bitcoin/types.hpp, bitcoin/transaction.hpp) *)

Definition data_chunk := list Byte.byte.

(** [hash_digest] is a [std::array<uint8_t, 32>]; its width is an invariant
    of the values the code builds. *)
Definition hash_digest := list Byte.byte.
Definition hash_digest_size : nat := 32.
Definition hash_list := list hash_digest.

Definition null_hash : hash_digest := repeat Byte.x00 hash_digest_size.

Definition hash_digest_eqb (a b : hash_digest) : bool :=
  if list_eq_dec Byte.byte_eq_dec a b then true else false.

Record output_point := mk_output_point {
  hash : hash_digest;
  index : Z                       (* uint32_t *)
}.

Record transaction_input_type := mk_input {
  previous_output : output_point;
  input_script : data_chunk;      (* script, opaque here *)
  sequence : Z                    (* uint32_t *)
}.

Record transaction_output_type := mk_output {
  value : Z;                      (* uint64_t *)
  output_script : data_chunk      (* script, opaque here *)
}.

Record transaction_type := mk_transaction {
  version : Z;                    (* uint32_t *)
  locktime : Z;                   (* uint32_t *)
  inputs : list transaction_input_type;
  outputs : list transaction_output_type
}.

(** ** Merkle tree builder: [build_merkle_tree] *)

(** *** Serializer writing into a pre-sized buffer

    Modelled from the spec: [make_serializer] and [serializer::write_hash]
    (bitcoin/utility/serializer.hpp, not part of the sources) write the
    digest's raw bytes, full width and with no separator, at the iterator
    and advance it ("concatenate each pair's raw digest bytes, first then
    second, each full-width, no separator"). *)
Record serializer := mk_serializer {
  ser_buf : data_chunk;
  ser_pos : nat
}.

Definition make_serializer (buf : data_chunk) : serializer :=
  mk_serializer buf 0.

Definition write_hash (s : serializer) (h : hash_digest) : serializer :=
  mk_serializer
    (firstn (ser_pos s) (ser_buf s) ++ h
       ++ skipn (ser_pos s + length h) (ser_buf s))
    (ser_pos s + length h).

Section Merkle.

(** The hash primitive [generate_sha256_hash] is an external collaborator. *)
Variable generate_sha256_hash : data_chunk -> hash_digest.

(** Body of the inner [for] loop: the parent of a pair of digests. *)
Definition merkle_parent (a b : hash_digest) : hash_digest :=
  let concat_data := repeat Byte.x00 (hash_digest_size * 2) in
  let concat := make_serializer concat_data in
  let concat := write_hash concat a in
  let concat := write_hash concat b in
  generate_sha256_hash (ser_buf concat).

(** [if (merkle.size() % 2 != 0) merkle.push_back(merkle.back());] *)
Definition dup_odd (merkle : hash_list) : hash_list :=
  if Nat.odd (length merkle) then merkle ++ [last merkle null_hash]
  else merkle.

(** [for (it = merkle.begin(); it != merkle.end(); it += 2)] over a level
    of even length. *)
Fixpoint pair_level (merkle : hash_list) : hash_list :=
  match merkle with
  | a :: b :: rest => merkle_parent a b :: pair_level rest
  | _ => []
  end.

(** [while (merkle.size() > 1) { ...; merkle = new_merkle; }]; the loop
    runs at most [length merkle] times, which [build_merkle_tree] gives as
    fuel. *)
Fixpoint merkle_loop (fuel : nat) (merkle : hash_list) : hash_list :=
  match fuel with
  | O => merkle
  | S fuel' =>
      if Nat.leb (length merkle) 1 then merkle
      else merkle_loop fuel' (pair_level (dup_odd merkle))
  end.

(** [hash_digest build_merkle_tree(hash_list& merkle)]: the argument is
    passed by non-const reference, so the call returns the root together
    with the contents of the caller's list after the call. *)
Definition build_merkle_tree (merkle : hash_list) : hash_digest * hash_list :=
  match merkle with
  | [] => (null_hash, merkle)
  | [h] => (h, merkle)
  | _ =>
      let merkle' := merkle_loop (length merkle) merkle in
      (hd null_hash merkle', merkle')
  end.

(** The root, as seen by a caller that discards the list. *)
Definition merkle_root (merkle : hash_list) : hash_digest :=
  fst (build_merkle_tree merkle).

End Merkle.

(** ** Classification: [previous_output_is_null], [is_coinbase] *)

Definition previous_output_is_null (previous_output : output_point) : bool :=
  (index previous_output =? u32_max)
  && hash_digest_eqb (hash previous_output) null_hash.

Definition is_coinbase (tx : transaction_type) : bool :=
  match inputs tx with
  | [input0] => previous_output_is_null (previous_output input0)
  | _ => false        (* tx.inputs.size() == 1 is false *)
  end.

(** ** [total_output_value]: [total += output.value] on a [uint64_t] *)

Definition total_output_value (tx : transaction_type) : Z :=
  fold_left (fun total output => wrap64 (total + value output)) (outputs tx) 0.

(** The mathematical sum of the output values, to compare with. *)
Definition output_value_sum (tx : transaction_type) : Z :=
  fold_right (fun output s => value output + s) 0 (outputs tx).

(** ** Finality: [is_final] *)

(** Modelled from the spec: [locktime_threshold] (bitcoin/constants.hpp,
    not part of the sources) is the height/time discriminator,
    "conventionally 500,000,000". *)
Definition locktime_threshold : Z := 500000000.

Definition is_final_input (tx_input : transaction_input_type) : bool :=
  sequence tx_input =? u32_max.

(** [bool is_final(const transaction_type& tx, size_t block_height,
    uint32_t block_time)].  [block_height] is a 64-bit [size_t]; it is
    assigned to the [uint32_t] variable [max_locktime], which keeps it
    modulo [2^32]. *)
Definition is_final (tx : transaction_type) (block_height block_time : Z)
    : bool :=
  if locktime tx =? 0 then true
  else
    let max_locktime :=
      if locktime tx <? locktime_threshold then wrap32 block_height
      else block_time in
    if locktime tx <? max_locktime then true
    else forallb is_final_input (inputs tx).

(** ** Coin selection: [select_outputs] *)

Record output_info_type := mk_output_info {
  point : output_point;
  info_value : Z                  (* output_info_type::value, uint64_t *)
}.

Definition output_info_list := list output_info_type.

Record select_outputs_result := mk_select_outputs_result {
  points : list output_point;
  change : Z                      (* uint64_t *)
}.

(** [select_outputs_result()]: value-initialised, no points, zero change. *)
Definition empty_result : select_outputs_result :=
  mk_select_outputs_result [] 0.

(** Modelled from the spec: [select_outputs_algorithm] (declared in
    bitcoin/transaction.hpp, not part of the sources) names the single
    strategy "greedy".  An object of an enumeration type holds any value
    of its underlying type, and a cast reaches a value that names no
    strategy: [non_greedy_value] stands for any such value.
    [select_outputs] only compares [alg] with [greedy], so which other
    value it is does not matter. *)
Inductive select_outputs_algorithm := greedy | non_greedy_value.

Definition select_outputs_algorithm_eq_dec
    (a b : select_outputs_algorithm) : {a = b} + {a <> b}.
Proof. decide equality. Defined.

(** Outcome of a call that may stop on a [BITCOIN_ASSERT]. *)
Inductive assert_result (A : Type) :=
| assertion_failed : assert_result A
| returned : A -> assert_result A.
Arguments assertion_failed {A}.
Arguments returned {A} _.

(** [std::min_element] with [info_a.value < info_b.value]: the first of the
    smallest elements. *)
Fixpoint min_element (l : output_info_list) : option output_info_type :=
  match l with
  | [] => None
  | x :: rest =>
      match min_element rest with
      | Some m => if info_value m <? info_value x then Some m else Some x
      | None => Some x
      end
  end.

(** [std::sort] with [info_a.value > info_b.value], by insertion.
    [std::sort] leaves the order of equal values unspecified; this model
    fixes one. *)
Fixpoint insert_desc (x : output_info_type) (l : output_info_list)
    : output_info_list :=
  match l with
  | [] => [x]
  | y :: rest =>
      if info_value y <? info_value x then x :: y :: rest
      else y :: insert_desc x rest
  end.

Fixpoint sort_desc (l : output_info_list) : output_info_list :=
  match l with
  | [] => []
  | x :: rest => insert_desc x (sort_desc rest)
  end.

(** The accumulation loop over the sorted lessers; [accum] is a
    [uint64_t]. *)
Fixpoint accumulate (min_value : Z) (l : output_info_list) (accum : Z)
    (pts : list output_point) : select_outputs_result :=
  match l with
  | [] => empty_result
  | it :: rest =>
      let pts' := pts ++ [point it] in
      let accum' := wrap64 (accum + info_value it) in
      if min_value <=? accum' then
        mk_select_outputs_result pts' (wrap64 (accum' - min_value))
      else accumulate min_value rest accum' pts'
  end.

(** [select_outputs(output_info_list unspent, uint64_t min_value,
    select_outputs_algorithm alg)].  [std::partition] is modelled by two
    filters (the standard leaves the order inside each part unspecified;
    the greaters are only searched for a minimum and the lessers are
    sorted afterwards). *)
Definition select_outputs (unspent : output_info_list) (min_value : Z)
    (alg : select_outputs_algorithm) : assert_result select_outputs_result :=
  if select_outputs_algorithm_eq_dec alg greedy then
    returned
      match unspent with
      | [] => empty_result
      | _ :: _ =>
          let lesser :=
            filter (fun out_info => info_value out_info <? min_value) unspent in
          let greater :=
            filter (fun out_info => negb (info_value out_info <? min_value))
              unspent in
          match min_element greater with
          | Some min_greater =>
              mk_select_outputs_result [point min_greater]
                (wrap64 (info_value min_greater - min_value))
          | None => accumulate min_value (sort_desc lesser) 0 []
          end
      end
  else assertion_failed.

(** A call as the caller sees it: [unspent] is passed by value, so the
    partition and sort act on the callee's copy and the caller's list is
    returned as it was. *)
Definition select_outputs_call (unspent : output_info_list) (min_value : Z)
    (alg : select_outputs_algorithm)
    : assert_result select_outputs_result * output_info_list :=
  (select_outputs unspent min_value alg, unspent).

(** ** Transaction hashing: [hash_transaction_impl], [hash_transaction],
    [generate_merkle_root] *)

Section TransactionHash.

(** The serializer [satoshi_save] (with [satoshi_raw_size] the length of
    its output) and the hash primitive are external collaborators. *)
Variable satoshi_save : transaction_type -> data_chunk.
Variable generate_sha256_hash : data_chunk -> hash_digest.

(** Modelled from the spec: [uncast_type] (bitcoin/utility/serializer.hpp,
    not part of the sources) gives the 4-byte little-endian encoding of a
    [uint32_t] ("its 4-byte little-endian ... encoding is appended"). *)
Definition byte_of_Z (z : Z) : Byte.byte :=
  match Byte.of_N (Z.to_N (z mod 256)) with
  | Some b => b
  | None => Byte.x00
  end.

Definition uncast_type (v : Z) : data_chunk :=
  map (fun i => byte_of_Z (Z.shiftr v (8 * i))) [0; 1; 2; 3].

(** [extend_data(chunk, other)] appends [other] to [chunk]. *)
Definition extend_data (chunk other : data_chunk) : data_chunk :=
  chunk ++ other.

(** The bytes hashed by [hash_transaction_impl]; [None] is the
    [nullptr] hash type code. *)
Definition transaction_preimage (tx : transaction_type)
    (hash_type_code : option Z) : data_chunk :=
  let serialized_tx := satoshi_save tx in
  match hash_type_code with
  | Some code => extend_data serialized_tx (uncast_type code)
  | None => serialized_tx
  end.

Definition hash_transaction_impl (tx : transaction_type)
    (hash_type_code : option Z) : hash_digest :=
  generate_sha256_hash (transaction_preimage tx hash_type_code).

Definition hash_transaction (tx : transaction_type) : hash_digest :=
  hash_transaction_impl tx None.

Definition hash_transaction_typed (tx : transaction_type)
    (hash_type_code : Z) : hash_digest :=
  hash_transaction_impl tx (Some hash_type_code).

(** [generate_merkle_root]: hashes each transaction into a local list and
    builds the tree over it. *)
Definition generate_merkle_root (transactions : list transaction_type)
    : hash_digest :=
  let tx_hashes := map hash_transaction transactions in
  fst (build_merkle_tree generate_sha256_hash tx_hashes).

End TransactionHash.

(** ** Amount formatting: [satoshi_to_btc] (src/src/format.cpp)

    [std::string] is modelled as a list of characters. *)


(** [coin_price] (bitcoin/constants.hpp, not part of the sources):
    [coin_price(value) = value * 100000000], the satoshis in [value]
    coins. *)
Definition coin_price (value : Z) : Z := value * 100000000.

(** Decimal digits, most significant first, as [Decimal.uint] lists
    them. *)
Fixpoint uint_chars (d : Decimal.uint) : list ascii :=
  match d with
  | Decimal.Nil => []
  | Decimal.D0 d' => "0"%char :: uint_chars d'
  | Decimal.D1 d' => "1"%char :: uint_chars d'
  | Decimal.D2 d' => "2"%char :: uint_chars d'
  | Decimal.D3 d' => "3"%char :: uint_chars d'
  | Decimal.D4 d' => "4"%char :: uint_chars d'
  | Decimal.D5 d' => "5"%char :: uint_chars d'
  | Decimal.D6 d' => "6"%char :: uint_chars d'
  | Decimal.D7 d' => "7"%char :: uint_chars d'
  | Decimal.D8 d' => "8"%char :: uint_chars d'
  | Decimal.D9 d' => "9"%char :: uint_chars d'
  end.

(** [boost::lexical_cast<std::string>] of a [uint64_t]: its shortest
    decimal representation. *)
Definition lexical_cast_u64 (n : Z) : list ascii :=
  uint_chars (N.to_uint (Z.to_N n)).

Fixpoint drop_zeros (s : list ascii) : list ascii :=
  match s with
  | c :: rest => if Ascii.eqb c "0"%char then drop_zeros rest else s
  | [] => []
  end.

(** [boost::algorithm::trim_right_if(s, boost::is_any_of("0"%char))]. *)
Definition trim_right_zeros (s : list ascii) : list ascii :=
  rev (drop_zeros (rev s)).

(** [std::string satoshi_to_btc(uint64_t value)].  [major * coin_price(1)]
    and the subtraction are [uint64_t] operations; the two
    [BITCOIN_ASSERT]s stop the call when they fail. *)
Definition satoshi_to_btc (value : Z) : assert_result (list ascii) :=
  let major := value / coin_price 1 in
  let result := lexical_cast_u64 major in
  if value <? major then assertion_failed
  else
    let minor := wrap64 (value - wrap64 (major * coin_price 1)) in
    if coin_price 1 <=? minor then assertion_failed
    else if 0 <? minor then
      let minor_str := lexical_cast_u64 minor in
      let padded_minor := repeat "0"%char (8 - length minor_str) ++ minor_str in
      let padded_minor := trim_right_zeros padded_minor in
      returned (result ++ "."%char :: padded_minor)
    else returned result.

(** A reader of decimal coin amounts, to state what [satoshi_to_btc]
    writes: whole coins, optionally a point and at most 8 digits of
    fraction, read back as satoshis. *)
Definition digit_value (c : ascii) : option Z :=
  let n := Z.of_nat (nat_of_ascii c) in
  if (48 <=? n) && (n <=? 57) then Some (n - 48) else None.

Fixpoint parse_digits (acc : Z) (s : list ascii) : option Z :=
  match s with
  | [] => Some acc
  | c :: rest =>
      match digit_value c with
      | Some d => parse_digits (10 * acc + d) rest
      | None => None
      end
  end.

Fixpoint split_dot (s : list ascii) : list ascii * option (list ascii) :=
  match s with
  | [] => ([], None)
  | c :: rest =>
      if Ascii.eqb c "."%char then ([], Some rest)
      else let (before, after) := split_dot rest in (c :: before, after)
  end.

Definition btc_to_satoshi (s : list ascii) : option Z :=
  match split_dot s with
  | (major, None) =>
      match parse_digits 0 major with
      | Some m => Some (m * 100000000)
      | None => None
      end
  | (major, Some frac) =>
      if Nat.leb (length frac) 8 then
        match parse_digits 0 major, parse_digits 0 frac with
        | Some m, Some f =>
            Some (m * 100000000 + f * 10 ^ Z.of_nat (8 - length frac))
        | _, _ => None
        end
      else None
  end.


(** The value of a list of decimal digits, read after [acc]. *)
Fixpoint uint_value (acc : Z) (d : Decimal.uint) : Z :=
  match d with
  | Decimal.Nil => acc
  | Decimal.D0 d' => uint_value (10 * acc) d'
  | Decimal.D1 d' => uint_value (10 * acc + 1) d'
  | Decimal.D2 d' => uint_value (10 * acc + 2) d'
  | Decimal.D3 d' => uint_value (10 * acc + 3) d'
  | Decimal.D4 d' => uint_value (10 * acc + 4) d'
  | Decimal.D5 d' => uint_value (10 * acc + 5) d'
  | Decimal.D6 d' => uint_value (10 * acc + 6) d'
  | Decimal.D7 d' => uint_value (10 * acc + 7) d'
  | Decimal.D8 d' => uint_value (10 * acc + 8) d'
  | Decimal.D9 d' => uint_value (10 * acc + 9) d'
  end.

(** ** Hex decoding: [decode_hex] (src/src/format.cpp) *)

(** [boost::algorithm::trim] with the default [is_space] predicate of the
    classic locale: space, tab, newline, vertical tab, form feed and
    carriage return. *)
Definition is_space (c : ascii) : bool :=
  let n := nat_of_ascii c in
  Nat.eqb n 32 || (Nat.leb 9 n && Nat.leb n 13).

Fixpoint drop_spaces (s : list ascii) : list ascii :=
  match s with
  | c :: rest => if is_space c then drop_spaces rest else s
  | [] => []
  end.

(** [trim] is [trim_right] followed by [trim_left]. *)
Definition trim (s : list ascii) : list ascii :=
  drop_spaces (rev (drop_spaces (rev s))).

Section DecodeHex.

(** [int val = -1; std::stringstream converter;
    converter << std::hex << pair; converter >> val;]: the value left in
    [val] for the two-character string [pair] is what the standard
    library's formatted extraction gives; it is an external
    collaborator. *)
Variable stream_hex_int : list ascii -> Z.

(** The [for] loop over [i = 0, 2, 4, ...] while [i + 1 < hex_str.size()]:
    one step per pair of characters, a last odd character is not read.
    [None] is the early [return data_chunk()].  The loop writes
    [result[i / 2]] for every pair, so the pre-sized [result] is the list
    of the converted bytes.  [BITCOIN_ASSERT(hex_str.size() - i >= 2)]
    holds by the loop condition; [result[i / 2] = val] stores [val] modulo
    256 in a [uint8_t]. *)
Fixpoint decode_hex_loop (hex_str : list ascii)
    : assert_result (option data_chunk) :=
  match hex_str with
  | c1 :: c2 :: rest =>
      let val := stream_hex_int [c1; c2] in
      if val =? -1 then returned None
      else if 255 <? val then assertion_failed
      else
        match decode_hex_loop rest with
        | returned (Some bytes) => returned (Some (byte_of_Z val :: bytes))
        | other => other
        end
  | _ => returned (Some [])
  end.

Definition decode_hex (hex_str : list ascii) : assert_result data_chunk :=
  let hex_str := trim hex_str in
  match decode_hex_loop hex_str with
  | returned (Some result) => returned result
  | returned None => returned []
  | assertion_failed => assertion_failed
  end.

End DecodeHex.

(** Lowercase hex text of bytes, two characters per byte, to state what
    [decode_hex] reads. *)
Definition hex_digit (k : Z) : ascii :=
  ascii_of_nat (Z.to_nat (if k <? 10 then 48 + k else 87 + k)).

(** The value of a hex digit, either case. *)
Definition hex_value (c : ascii) : option Z :=
  let n := Z.of_nat (nat_of_ascii c) in
  if (48 <=? n) && (n <=? 57) then Some (n - 48)
  else if (97 <=? n) && (n <=? 102) then Some (n - 87)
  else if (65 <=? n) && (n <=? 70) then Some (n - 55)
  else None.

Definition hex_pair (b : Byte.byte) : list ascii :=
  let n := Z.of_N (Byte.to_N b) in
  [hex_digit (n / 16); hex_digit (n mod 16)].

Definition hex_text (bytes : data_chunk) : list ascii := flat_map hex_pair bytes.

(** Hex extraction on two hex digits gives their value. *)
Definition reads_hex_pairs (stream_hex_int : list ascii -> Z) : Prop :=
  forall hi lo vh vl, hex_value hi = Some vh -> hex_value lo = Some vl ->
    stream_hex_int [hi; lo] = 16 * vh + vl.

(** A stand-in extraction, to run [decode_hex] on concrete inputs. *)
Definition toy_hex_int (pair : list ascii) : Z :=
  match pair with
  | [hi; lo] =>
      match hex_value hi, hex_value lo with
      | Some vh, Some vl => 16 * vh + vl
      | _, _ => if list_eq_dec ascii_dec pair ["-"; "1"]%char then -1 else 0
      end
  | _ => 0
  end.

(** ** Sums and bounds on candidate lists, for the statements *)

(** The mathematical sum of the candidate values. *)
Fixpoint info_value_sum (l : output_info_list) : Z :=
  match l with
  | [] => 0
  | out_info :: rest => info_value out_info + info_value_sum rest
  end.

(** [value_ge a b]: [a] comes first in descending value order. *)
Definition value_ge (a b : output_info_type) : Prop :=
  info_value b <= info_value a.

Definition nonneg_values (l : output_info_list) : Prop :=
  Forall (fun out_info => 0 <= info_value out_info) l.

(** Every candidate value is a [uint64_t]. *)
Definition u64_values (l : output_info_list) : bool :=
  forallb (fun out_info => (0 <=? info_value out_info)
                           && (info_value out_info <? 2 ^ 64)) l.

(** ** Concrete instances *)

(** A stand-in for the hash primitive, of the right width, used to run the
    merkle builder on concrete inputs. *)
Definition toy_hash (d : data_chunk) : hash_digest :=
  firstn hash_digest_size (rev d ++ null_hash).

Definition dg (b : Byte.byte) : hash_digest := repeat b hash_digest_size.

Definition op (b : Byte.byte) (i : Z) : output_point := mk_output_point (dg b) i.

Definition info (b : Byte.byte) (v : Z) : output_info_type :=
  mk_output_info (op b 0) v.

Definition out (v : Z) : transaction_output_type := mk_output v [].

Definition wrapping_tx : transaction_type :=
  mk_transaction 1 0 [] [out (2 ^ 63); out (2 ^ 63)].

Definition inp (seq : Z) : transaction_input_type :=
  mk_input (mk_output_point null_hash 0) [] seq.

Definition height_locked_tx : transaction_type :=
  mk_transaction 1 1 [inp 0] [].

Definition big_unspent : output_info_list :=
  [info Byte.x01 (2 ^ 64 - 2); info Byte.x02 (2 ^ 64 - 2)].

Definition pending_tx : transaction_type :=
  mk_transaction 1 100 [inp u32_max; inp 7] [].

Example select_one_covering :
  select_outputs [info Byte.x01 150] 100 greedy
  = returned (mk_select_outputs_result [op Byte.x01 0] 50).
Proof. reflexivity. Qed.

Example select_two_lessers :
  select_outputs [info Byte.x01 30; info Byte.x02 40; info Byte.x03 90] 100 greedy
  = returned (mk_select_outputs_result [op Byte.x03 0; op Byte.x02 0] 30).
Proof. reflexivity. Qed.

Example select_insufficient :
  select_outputs [info Byte.x01 30; info Byte.x02 40] 100 greedy
  = returned empty_result.
Proof. reflexivity. Qed.

Example merkle_three :
  merkle_root toy_hash [dg Byte.x01; dg Byte.x02; dg Byte.x03]
  = merkle_root toy_hash [dg Byte.x01; dg Byte.x02; dg Byte.x03; dg Byte.x03].
Proof. vm_compute. reflexivity. Qed.

(** ** Merkle builder: lemmas *)

Section MerkleFacts.

Variable generate_sha256_hash : data_chunk -> hash_digest.

Local Abbreviation pair_level := (pair_level generate_sha256_hash).
Local Abbreviation merkle_loop := (merkle_loop generate_sha256_hash).
Local Abbreviation merkle_parent := (merkle_parent generate_sha256_hash).

Lemma pair_level_length_bounds (l : hash_list) :
  (2 * length (pair_level l) <= length l <= 2 * length (pair_level l) + 1)%nat.
Proof.
  remember (length l) as n eqn:Hn.
  revert l Hn. induction n as [n IH] using lt_wf_ind. intros l Hn.
  destruct l as [|a [|b rest]]; simpl in *; subst; try lia.
  specialize (IH (length rest) ltac:(lia) rest eq_refl). lia.
Qed.

Lemma dup_odd_length (l : hash_list) :
  length (dup_odd l) = if Nat.odd (length l) then S (length l) else length l.
Proof.
  unfold dup_odd. destruct (Nat.odd (length l)); [|reflexivity].
  rewrite length_app. simpl. lia.
Qed.

Lemma dup_odd_even (l : hash_list) :
  Nat.odd (length (dup_odd l)) = false.
Proof.
  rewrite dup_odd_length. destruct (Nat.odd (length l)) eqn:E; [|exact E].
  rewrite Nat.odd_succ, <- Nat.negb_odd, E. reflexivity.
Qed.

(** One round of the [while] loop shrinks a level of two or more. *)
Lemma level_shrinks (l : hash_list) :
  (2 <= length l)%nat ->
  (1 <= length (pair_level (dup_odd l)) <= length l - 1)%nat.
Proof.
  intros H.
  pose proof (pair_level_length_bounds (dup_odd l)) as B.
  pose proof (dup_odd_even l) as E.
  rewrite dup_odd_length in B, E.
  destruct (Nat.odd (length l)) eqn:O.
  - lia.
  - assert (length (pair_level (dup_odd l)) * 2 <> length l + 1)%nat.
    { intro C. rewrite Nat.add_1_r in C.
      assert (Nat.odd (S (length l)) = true) as C'.
      { rewrite Nat.odd_succ, <- Nat.negb_odd, O. reflexivity. }
      rewrite <- C, Nat.odd_mul in C'. simpl in C'.
      rewrite andb_false_r in C'. discriminate. }
    lia.
Qed.

Lemma merkle_loop_fuel (f1 f2 : nat) (l : hash_list) :
  (length l <= f1)%nat -> (length l <= f2)%nat ->
  merkle_loop f1 l = merkle_loop f2 l.
Proof.
  revert f2 l. induction f1 as [|f1 IH]; intros f2 l H1 H2.
  - destruct l; [|simpl in H1; lia].
    destruct f2; reflexivity.
  - destruct f2 as [|f2].
    + destruct l; [reflexivity|simpl in H2; lia].
    + simpl. destruct (Nat.leb (length l) 1) eqn:E; [reflexivity|].
      apply Nat.leb_gt in E. pose proof (level_shrinks l ltac:(lia)).
      apply IH; lia.
Qed.

Lemma merkle_loop_single (f : nat) (l : hash_list) :
  (length l <= f)%nat -> (1 <= length l)%nat ->
  length (merkle_loop f l) = 1%nat.
Proof.
  revert l. induction f as [|f IH]; intros l H1 H2.
  - lia.
  - simpl. destruct (Nat.leb (length l) 1) eqn:E.
    + apply Nat.leb_le in E. lia.
    + apply Nat.leb_gt in E. pose proof (level_shrinks l ltac:(lia)).
      apply IH; lia.
Qed.

(** The serializer writing a digest right after a written prefix. *)
Lemma write_hash_after (pre rest h : data_chunk) :
  (length h <= length rest)%nat ->
  write_hash (mk_serializer (pre ++ rest) (length pre)) h
  = mk_serializer (pre ++ h ++ skipn (length h) rest)
      (length pre + length h).
Proof.
  intros H. unfold write_hash. simpl. f_equal.
  rewrite firstn_app, Nat.sub_diag, firstn_O, app_nil_r, firstn_all.
  rewrite skipn_app, skipn_all2 by lia. simpl.
  replace (length pre + length h - length pre)%nat with (length h) by lia.
  reflexivity.
Qed.

Lemma merkle_parent_concat (a b : hash_digest) :
  length a = hash_digest_size -> length b = hash_digest_size ->
  merkle_parent a b = generate_sha256_hash (a ++ b).
Proof.
  intros Ha Hb. unfold merkle_parent, make_serializer.
  set (R := repeat Byte.x00 hash_digest_size).
  assert (HR : length R = hash_digest_size) by apply repeat_length.
  replace (repeat Byte.x00 (hash_digest_size * 2)) with ([] ++ R ++ R)
    by (unfold R; rewrite <- repeat_app; reflexivity).
  change 0%nat with (@length Byte.byte []).
  rewrite write_hash_after by (rewrite length_app; lia).
  assert (S1 : skipn (length a) (R ++ R) = R).
  { rewrite skipn_app, skipn_all2 by lia.
    replace (length a - length R)%nat with 0%nat by lia. reflexivity. }
  rewrite S1, app_nil_l. change (length (@nil Byte.byte) + length a)%nat
    with (length a).
  rewrite write_hash_after by lia.
  rewrite skipn_all2 by lia. rewrite app_nil_r. reflexivity.
Qed.

End MerkleFacts.

Lemma build_merkle_tree_long (sha : data_chunk -> hash_digest) (l : hash_list) :
  (2 <= length l)%nat ->
  build_merkle_tree sha l
  = (hd null_hash (merkle_loop sha (length l) l), merkle_loop sha (length l) l).
Proof.
  intros H. destruct l as [|a [|b rest]]; simpl in H; try lia. reflexivity.
Qed.

Lemma merkle_loop_step (sha : data_chunk -> hash_digest) (f : nat) (l : hash_list) :
  (2 <= length l)%nat ->
  merkle_loop sha (S f) l = merkle_loop sha f (pair_level sha (dup_odd l)).
Proof.
  intros H. simpl. destruct (Nat.leb (length l) 1) eqn:E; [|reflexivity].
  apply Nat.leb_le in E. lia.
Qed.

(** ** Claims on the merkle builder *)

(** C6 (corrected).  [build_merkle_tree] takes its list by non-const
    reference and works in place: the caller's list is left unchanged only
    when it has at most one element, and otherwise holds exactly the root
    after the call.  [select_outputs] takes its list by value, so the
    caller's list is unchanged. *)
Theorem build_merkle_tree_overwrites_argument :
  (forall (sha : data_chunk -> hash_digest) (merkle : hash_list),
     snd (build_merkle_tree sha merkle)
     = if Nat.leb (length merkle) 1 then merkle
       else [merkle_root sha merkle])
  /\ (forall (unspent : output_info_list) (min_value : Z)
        (alg : select_outputs_algorithm),
        snd (select_outputs_call unspent min_value alg) = unspent).
Proof.
  split.
  - intros sha merkle. destruct (Nat.leb (length merkle) 1) eqn:E.
    + apply Nat.leb_le in E.
      destruct merkle as [|a [|b rest]]; simpl in E; try lia; reflexivity.
    + apply Nat.leb_gt in E. unfold merkle_root.
      rewrite build_merkle_tree_long by lia. simpl.
      pose proof (merkle_loop_single sha (length merkle) merkle
                    ltac:(lia) ltac:(lia)) as L.
      destruct (merkle_loop sha (length merkle) merkle) as [|x [|y r]];
        simpl in L; try lia. reflexivity.
  - intros. reflexivity.
Qed.

(** C6: a two-element list is overwritten by the call. *)
Lemma build_merkle_tree_mutates_cex :
  snd (build_merkle_tree toy_hash [dg Byte.x01; dg Byte.x02])
  <> [dg Byte.x01; dg Byte.x02].
Proof. vm_compute. discriminate. Qed.

(** C7.  On an odd-length list of at least three digests, appending the
    last digest once more does not change the root. *)
Theorem merkle_root_odd_dup (sha : data_chunk -> hash_digest) (l : hash_list)
    (Hodd : Nat.odd (length l) = true) (H3 : (3 <= length l)%nat) :
  merkle_root sha l = merkle_root sha (l ++ [last l null_hash]).
Proof.
  set (l' := l ++ [last l null_hash]).
  assert (Hl' : length l' = S (length l))
    by (unfold l'; rewrite length_app; simpl; lia).
  assert (Hd : dup_odd l = l') by (unfold dup_odd; rewrite Hodd; reflexivity).
  assert (Hd' : dup_odd l' = l').
  { unfold dup_odd. rewrite Hl', Nat.odd_succ, <- Nat.negb_odd, Hodd.
    reflexivity. }
  unfold merkle_root.
  rewrite (build_merkle_tree_long sha l) by lia.
  rewrite (build_merkle_tree_long sha l') by lia.
  simpl. f_equal.
  destruct (length l) as [|k] eqn:E; [lia|].
  rewrite Hl'.
  rewrite (merkle_loop_step sha k l) by lia.
  rewrite (merkle_loop_step sha (S k) l') by lia.
  rewrite Hd, Hd'.
  pose proof (level_shrinks sha l ltac:(lia)) as B.
  rewrite Hd in B.
  apply merkle_loop_fuel; lia.
Qed.

(** C8.  The root of the empty list is the null digest, the root of a
    single digest is that digest, and the root of two full-width digests
    is the hash of their concatenation, first then second. *)
Theorem merkle_root_small (sha : data_chunk -> hash_digest) (h1 h2 : hash_digest)
    (H1 : length h1 = hash_digest_size) (H2 : length h2 = hash_digest_size) :
  merkle_root sha [] = null_hash
  /\ (forall h : hash_digest, merkle_root sha [h] = h)
  /\ merkle_root sha [h1; h2] = sha (h1 ++ h2).
Proof.
  split; [reflexivity|]. split; [reflexivity|].
  unfold merkle_root. simpl.
  rewrite merkle_parent_concat by assumption. reflexivity.
Qed.

(** ** Claims on the transaction queries *)

Lemma hash_digest_eqb_spec (a b : hash_digest) :
  hash_digest_eqb a b = true <-> a = b.
Proof.
  unfold hash_digest_eqb. destruct (list_eq_dec Byte.byte_eq_dec a b);
    split; congruence.
Qed.

(** C9.  A transaction is a coinbase exactly when it has one input whose
    previous output is the null point (index [2^32-1], all-zero hash); it
    is not one when it has zero or several inputs. *)
Theorem is_coinbase_spec (tx : transaction_type) :
  (is_coinbase tx = true
   <-> exists input0, inputs tx = [input0]
       /\ index (previous_output input0) = u32_max
       /\ hash (previous_output input0) = null_hash)
  /\ (length (inputs tx) <> 1%nat -> is_coinbase tx = false).
Proof.
  unfold is_coinbase, previous_output_is_null. split.
  - destruct (inputs tx) as [|i [|j rest]]; split.
    + discriminate.
    + intros [i [E _]]; discriminate.
    + intros H. apply andb_true_iff in H as [H1 H2].
      apply Z.eqb_eq in H1. apply hash_digest_eqb_spec in H2. eauto.
    + intros [i' [E [H1 H2]]]. injection E as <-.
      rewrite H1, Z.eqb_refl, H2. simpl. apply hash_digest_eqb_spec. reflexivity.
    + discriminate.
    + intros [i' [E _]]; discriminate.
  - destruct (inputs tx) as [|i [|j rest]]; simpl; intros H;
      [reflexivity | lia | reflexivity].
Qed.

Lemma total_output_value_fold (l : list transaction_output_type) (acc : Z) :
  fold_left (fun total output => wrap64 (total + value output)) l (wrap64 acc)
  = wrap64 (acc + fold_right (fun output s => value output + s) 0 l).
Proof.
  revert acc. induction l as [|o rest IH]; intros acc; simpl.
  - rewrite Z.add_0_r. reflexivity.
  - replace (wrap64 (wrap64 acc + value o)) with (wrap64 (acc + value o))
      by (unfold wrap64; rewrite Zplus_mod_idemp_l; reflexivity).
    rewrite IH. f_equal. lia.
Qed.

(** C1 (corrected).  [total_output_value] adds on a [uint64_t] with no
    overflow check: it returns the sum of the output values modulo [2^64],
    which is the exact sum when that sum is below [2^64]; no overflow error
    is ever raised. *)
Theorem total_output_value_wraps (tx : transaction_type) :
  total_output_value tx = output_value_sum tx mod 2 ^ 64
  /\ (0 <= output_value_sum tx < 2 ^ 64 ->
      total_output_value tx = output_value_sum tx).
Proof.
  assert (E : total_output_value tx = output_value_sum tx mod 2 ^ 64).
  { unfold total_output_value, output_value_sum.
    pose proof (total_output_value_fold (outputs tx) 0) as F.
    replace (wrap64 0) with 0 in F by reflexivity.
    rewrite F. reflexivity. }
  split; [exact E|]. intros H. rewrite E. apply Z.mod_small. exact H.
Qed.

(** C1: two outputs of [2^63] each sum to [2^64]; the code returns the
    wrapped value [0] and signals nothing. *)
Lemma total_output_value_wrap_cex :
  output_value_sum wrapping_tx = 2 ^ 64 /\ total_output_value wrapping_tx = 0.
Proof. split; reflexivity. Qed.

(** ** Claims on finality *)

(** C2 (code_bug).  A height lock of [1] at reference height [2^32] has
    elapsed, yet [is_final] keeps the height in the [uint32_t]
    [max_locktime], compares [1 < 0] and falls through to the input, whose
    sequence is [0]: the transaction is reported as not final. *)
Theorem is_final_height_truncated :
  locktime height_locked_tx < locktime_threshold
  /\ locktime height_locked_tx < 2 ^ 32
  /\ is_final height_locked_tx (2 ^ 32) 0 = false.
Proof. split; [reflexivity|]. split; reflexivity. Qed.

(** C3.  When the lock is nonzero and has not elapsed, the transaction is
    final exactly when every input has the maximal sequence. *)
Theorem is_final_unelapsed (tx : transaction_type) (block_height block_time : Z)
    (Hlock : locktime tx <> 0) (Hheight : is_u64 block_height)
    (Hnot : ~ locktime tx < (if locktime tx <? locktime_threshold
                             then block_height else block_time)) :
  is_final tx block_height block_time = true
  <-> Forall (fun tx_input => sequence tx_input = u32_max) (inputs tx).
Proof.
  unfold is_final. apply Z.eqb_neq in Hlock. rewrite Hlock.
  assert (Hmax : ~ locktime tx < (if locktime tx <? locktime_threshold
                                  then wrap32 block_height else block_time)).
  { destruct (locktime tx <? locktime_threshold) eqn:T; [|exact Hnot].
    apply Z.ltb_lt in T. unfold is_u64, locktime_threshold in *.
    unfold wrap32. rewrite Z.mod_small by lia. exact Hnot. }
  apply Z.ltb_nlt in Hmax. cbv zeta. rewrite Hmax.
  rewrite forallb_forall, Forall_forall.
  split; intros H x Hx; specialize (H x Hx); unfold is_final_input in *.
  - apply Z.eqb_eq. exact H.
  - apply Z.eqb_eq in H. exact H.
Qed.

(** ** Coin selection: lemmas *)

Lemma min_element_none (l : output_info_list) :
  min_element l = None -> l = [].
Proof.
  destruct l as [|x rest]; [reflexivity|]. simpl.
  destruct (min_element rest); [destruct (_ <? _)|]; discriminate.
Qed.

Lemma min_element_some (l : output_info_list) (m : output_info_type) :
  min_element l = Some m ->
  In m l /\ forall y, In y l -> info_value m <= info_value y.
Proof.
  revert m. induction l as [|x rest IH]; intros m H; [discriminate|].
  simpl in H. destruct (min_element rest) as [m'|] eqn:E.
  - destruct (IH m' eq_refl) as [Hin Hle].
    destruct (info_value m' <? info_value x) eqn:L; injection H as <-.
    + apply Z.ltb_lt in L. split; [right; exact Hin|].
      intros y [<-|Hy]; [lia|auto].
    + apply Z.ltb_ge in L. split; [left; reflexivity|].
      intros y [<-|Hy]; [lia|]. specialize (Hle y Hy). lia.
  - apply min_element_none in E. subst rest. injection H as <-.
    split; [left; reflexivity|]. intros y [<-|[]]. lia.
Qed.

Lemma filter_all_true {A : Type} (f : A -> bool) (l : list A) :
  (forall x, In x l -> f x = true) -> filter f l = l.
Proof.
  induction l as [|x rest IH]; intros H; [reflexivity|]. simpl.
  rewrite (H x (or_introl eq_refl)), IH; [reflexivity|].
  intros y Hy. apply H. right. exact Hy.
Qed.

Lemma insert_desc_perm (x : output_info_type) (l : output_info_list) :
  Permutation (insert_desc x l) (x :: l).
Proof.
  induction l as [|y rest IH]; simpl; [reflexivity|].
  destruct (info_value y <? info_value x); [reflexivity|].
  rewrite IH. apply perm_swap.
Qed.

Lemma sort_desc_perm (l : output_info_list) : Permutation (sort_desc l) l.
Proof.
  induction l as [|x rest IH]; simpl; [reflexivity|].
  rewrite insert_desc_perm, IH. reflexivity.
Qed.

Lemma insert_desc_hdrel (x y : output_info_type) (l : output_info_list) :
  value_ge y x -> HdRel value_ge y l -> HdRel value_ge y (insert_desc x l).
Proof.
  intros Hyx Hy. destruct l as [|z rest]; simpl.
  - constructor. exact Hyx.
  - destruct (info_value z <? info_value x).
    + constructor. exact Hyx.
    + inversion Hy; subst. constructor. assumption.
Qed.

Lemma insert_desc_sorted (x : output_info_type) (l : output_info_list) :
  Sorted value_ge l -> Sorted value_ge (insert_desc x l).
Proof.
  induction l as [|y rest IH]; intros H; simpl.
  - repeat constructor.
  - inversion H as [|y' rest' Hs Hhd]; subst.
    destruct (info_value y <? info_value x) eqn:E.
    + apply Z.ltb_lt in E. constructor; [exact H|].
      constructor. unfold value_ge. lia.
    + apply Z.ltb_ge in E. constructor; [apply IH; exact Hs|].
      apply insert_desc_hdrel; [unfold value_ge; lia|exact Hhd].
Qed.

Lemma sort_desc_sorted (l : output_info_list) : Sorted value_ge (sort_desc l).
Proof.
  induction l as [|x rest IH]; simpl; [constructor|].
  apply insert_desc_sorted. exact IH.
Qed.

Lemma info_value_sum_perm (l l' : output_info_list) :
  Permutation l l' -> info_value_sum l = info_value_sum l'.
Proof.
  induction 1; simpl; lia.
Qed.

Lemma nonneg_values_perm (l l' : output_info_list) :
  Permutation l l' -> nonneg_values l -> nonneg_values l'.
Proof.
  unfold nonneg_values. rewrite !Forall_forall. intros P H x Hx.
  apply H. apply (Permutation_in x (Permutation_sym P)). exact Hx.
Qed.

Lemma info_value_sum_nonneg (l : output_info_list) :
  nonneg_values l -> 0 <= info_value_sum l.
Proof.
  induction 1; simpl; lia.
Qed.

Lemma info_value_sum_firstn_le (k : nat) (l : output_info_list) :
  nonneg_values l ->
  0 <= info_value_sum (firstn k l) <= info_value_sum l.
Proof.
  revert l. induction k as [|k IH]; intros l H.
  - simpl. pose proof (info_value_sum_nonneg l H). lia.
  - destruct l as [|x rest]; simpl; [lia|].
    inversion H; subst. specialize (IH rest ltac:(assumption)). lia.
Qed.

Lemma info_value_sum_in (l : output_info_list) (c : output_info_type) :
  nonneg_values l -> In c l -> info_value c <= info_value_sum l.
Proof.
  induction 1 as [|x rest Hx Hrest IH]; intros Hin; [destruct Hin|].
  simpl. pose proof (info_value_sum_nonneg rest Hrest).
  destruct Hin as [<-|Hin]; [lia|]. specialize (IH Hin). lia.
Qed.

(** A running sum that crosses [t] has a first crossing point. *)
Lemma first_reaching_prefix (l : output_info_list) (t : Z) :
  0 < t -> t <= info_value_sum l ->
  exists k, info_value_sum (firstn k l) < t
            <= info_value_sum (firstn (S k) l).
Proof.
  revert t. induction l as [|x rest IH]; intros t Ht Hs; simpl in Hs; [lia|].
  destruct (Z.le_gt_cases t (info_value x)) as [L|L].
  - exists 0%nat. simpl. lia.
  - destruct (IH (t - info_value x) ltac:(lia) ltac:(lia)) as [k Hk].
    exists (S k). rewrite !firstn_cons. cbn [info_value_sum]. lia.
Qed.

Lemma wrap64_small (z : Z) : 0 <= z < 2 ^ 64 -> wrap64 z = z.
Proof. intros H. unfold wrap64. apply Z.mod_small. exact H. Qed.

(** The accumulation loop stops at the first prefix whose sum reaches
    [min_value], as long as that sum does not wrap. *)
Lemma accumulate_reach (min_value : Z) (l : output_info_list) (acc : Z)
    (pts : list output_point) (k : nat) :
  0 <= acc -> nonneg_values l ->
  acc + info_value_sum (firstn k l) < min_value ->
  min_value <= acc + info_value_sum (firstn (S k) l) ->
  acc + info_value_sum (firstn (S k) l) < 2 ^ 64 ->
  accumulate min_value l acc pts
  = mk_select_outputs_result (pts ++ map point (firstn (S k) l))
      (acc + info_value_sum (firstn (S k) l) - min_value).
Proof.
  revert acc pts k. induction l as [|o rest IH]; intros acc pts k Hacc Hnn H1 H2 H3.
  - rewrite !firstn_nil in *. simpl in *. lia.
  - inversion Hnn as [|o' rest' Ho Hrest]; subst.
    rewrite firstn_cons in H2, H3 |- *. cbn [info_value_sum] in H2, H3 |- *.
    pose proof (info_value_sum_firstn_le k rest Hrest) as B.
    cbn [accumulate]. rewrite (wrap64_small (acc + info_value o)) by lia.
    destruct k as [|k].
    + simpl in H1, H2, H3 |- *.
      replace (min_value <=? acc + info_value o) with true
        by (symmetry; apply Z.leb_le; lia).
      rewrite wrap64_small by lia. f_equal. lia.
    + rewrite firstn_cons in H1. cbn [info_value_sum] in H1.
      pose proof (info_value_sum_firstn_le k rest Hrest) as B'.
      replace (min_value <=? acc + info_value o) with false
        by (symmetry; apply Z.leb_gt; lia).
      rewrite (IH (acc + info_value o) (pts ++ [point o]) k) by (exact Hrest || lia).
      rewrite <- app_assoc. simpl. f_equal. lia.
Qed.

(** The accumulation loop fails when the whole list does not reach
    [min_value]. *)
Lemma accumulate_short (min_value : Z) (l : output_info_list) (acc : Z)
    (pts : list output_point) :
  0 <= acc -> nonneg_values l ->
  acc + info_value_sum l < min_value -> min_value < 2 ^ 64 ->
  accumulate min_value l acc pts = empty_result.
Proof.
  revert acc pts. induction l as [|o rest IH]; intros acc pts Hacc Hnn H1 H2.
  - reflexivity.
  - inversion Hnn as [|o' rest' Ho Hrest]; subst. cbn [info_value_sum] in H1.
    pose proof (info_value_sum_nonneg rest Hrest).
    cbn [accumulate]. rewrite (wrap64_small (acc + info_value o)) by lia.
    replace (min_value <=? acc + info_value o) with false
      by (symmetry; apply Z.leb_gt; lia).
    apply IH; (exact Hrest || lia).
Qed.

Lemma select_outputs_greater (unspent : output_info_list) (min_value : Z) :
  (exists c, In c unspent /\ min_value <= info_value c) ->
  exists c, In c unspent /\ min_value <= info_value c
    /\ (forall c', In c' unspent -> min_value <= info_value c' ->
                   info_value c <= info_value c')
    /\ select_outputs unspent min_value greedy
       = returned (mk_select_outputs_result [point c]
                     (wrap64 (info_value c - min_value))).
Proof.
  intros [c [Hc Hcv]].
  set (ge_f := fun out_info => negb (info_value out_info <? min_value)).
  assert (Hin : forall y, In y (filter ge_f unspent)
                          <-> In y unspent /\ min_value <= info_value y).
  { intros y. rewrite filter_In. unfold ge_f.
    rewrite negb_true_iff, Z.ltb_ge. reflexivity. }
  destruct (min_element (filter ge_f unspent)) as [m|] eqn:E.
  - destruct (min_element_some _ _ E) as [Hm Hmin].
    apply Hin in Hm as [Hm Hmv].
    exists m. split; [exact Hm|]. split; [exact Hmv|]. split.
    + intros c' Hc' Hc'v. apply Hmin. apply Hin. auto.
    + unfold select_outputs.
      destruct (select_outputs_algorithm_eq_dec greedy greedy) as [_|N];
        [|congruence].
      destruct unspent as [|u rest]; [destruct Hc|].
      fold ge_f. rewrite E. reflexivity.
  - apply min_element_none in E.
    assert (In c (filter ge_f unspent)) as C by (apply Hin; auto).
    rewrite E in C. destruct C.
Qed.

Lemma select_outputs_lesser (unspent : output_info_list) (min_value : Z) :
  unspent <> [] ->
  (forall c, In c unspent -> info_value c < min_value) ->
  select_outputs unspent min_value greedy
  = returned (accumulate min_value (sort_desc unspent) 0 []).
Proof.
  intros Hne Hall. unfold select_outputs.
  destruct (select_outputs_algorithm_eq_dec greedy greedy) as [_|N];
    [|congruence].
  destruct unspent as [|u rest]; [congruence|]. cbv zeta.
  set (l := u :: rest) in *.
  destruct (min_element (filter (fun out_info =>
              negb (info_value out_info <? min_value)) l)) as [m|] eqn:E.
  - destruct (min_element_some _ _ E) as [Hm _].
    apply filter_In in Hm as [Hm Hmv].
    specialize (Hall m Hm). apply negb_true_iff, Z.ltb_ge in Hmv. lia.
  - rewrite filter_all_true; [reflexivity|].
    intros x Hx. apply Z.ltb_lt. auto.
Qed.

Lemma u64_values_nonneg (l : output_info_list) :
  u64_values l = true -> nonneg_values l.
Proof.
  unfold u64_values, nonneg_values. rewrite forallb_forall, Forall_forall.
  intros H x Hx. specialize (H x Hx).
  apply andb_true_iff in H as [H _]. apply Z.leb_le. exact H.
Qed.

Lemma u64_values_bound (l : output_info_list) (c : output_info_type) :
  u64_values l = true -> In c l -> is_u64 (info_value c).
Proof.
  unfold u64_values. rewrite forallb_forall. intros H Hc.
  specialize (H c Hc). apply andb_true_iff in H as [H1 H2].
  apply Z.leb_le in H1. apply Z.ltb_lt in H2. split; assumption.
Qed.

Lemma all_below_or_some_above (l : output_info_list) (min_value : Z) :
  (exists c, In c l /\ min_value <= info_value c)
  \/ (forall c, In c l -> info_value c < min_value).
Proof.
  destruct (existsb (fun c => min_value <=? info_value c) l) eqn:E.
  - left. apply existsb_exists in E as [c [Hc Hv]].
    apply Z.leb_le in Hv. eauto.
  - right. intros c Hc. destruct (Z.lt_ge_cases (info_value c) min_value)
      as [L|L]; [exact L|].
    assert (existsb (fun c => min_value <=? info_value c) l = true) as T.
    { apply existsb_exists. exists c. split; [exact Hc|]. apply Z.leb_le. exact L. }
    congruence.
Qed.

(** ** Claims on coin selection *)

(** C4 (corrected).  On a non-empty list: when some candidate covers the
    target, the result is the single point of a smallest covering
    candidate, with change its value minus the target.  Otherwise the
    candidates are taken in descending value order (a sorted permutation
    of the list) and the result is the points of the first prefix whose
    sum reaches the target, with change that sum minus the target,
    provided that sum is below [2^64]: the running sum [accum] is a
    wrapping [uint64_t]. *)
Theorem select_outputs_greedy (unspent : output_info_list) (min_value : Z)
    (Hne : unspent <> []) (Hvals : u64_values unspent = true)
    (Hmin : is_u64 min_value) :
  ((exists c, In c unspent /\ min_value <= info_value c) ->
   exists c, In c unspent /\ min_value <= info_value c
     /\ (forall c', In c' unspent -> min_value <= info_value c' ->
                    info_value c <= info_value c')
     /\ select_outputs unspent min_value greedy
        = returned (mk_select_outputs_result [point c]
                      (info_value c - min_value)))
  /\ ((forall c, In c unspent -> info_value c < min_value) ->
      Permutation (sort_desc unspent) unspent
      /\ Sorted value_ge (sort_desc unspent)
      /\ forall k : nat,
           info_value_sum (firstn k (sort_desc unspent)) < min_value
           <= info_value_sum (firstn (S k) (sort_desc unspent)) ->
           info_value_sum (firstn (S k) (sort_desc unspent)) < 2 ^ 64 ->
           select_outputs unspent min_value greedy
           = returned (mk_select_outputs_result
                 (map point (firstn (S k) (sort_desc unspent)))
                 (info_value_sum (firstn (S k) (sort_desc unspent))
                  - min_value))).
Proof.
  split.
  - intros Hex. destruct (select_outputs_greater unspent min_value Hex)
      as [c [Hc [Hcv [Hcmin Hsel]]]].
    exists c. split; [exact Hc|]. split; [exact Hcv|]. split; [exact Hcmin|].
    rewrite Hsel. pose proof (u64_values_bound _ _ Hvals Hc) as B.
    unfold is_u64 in *. rewrite wrap64_small by lia. reflexivity.
  - intros Hall. split; [apply sort_desc_perm|].
    split; [apply sort_desc_sorted|].
    intros k [H1 H2] H3.
    rewrite select_outputs_lesser by assumption.
    rewrite (accumulate_reach min_value (sort_desc unspent) 0 [] k);
      [reflexivity|lia| |lia|lia|lia].
    apply (nonneg_values_perm unspent); [symmetry; apply sort_desc_perm|].
    apply u64_values_nonneg. exact Hvals.
Qed.

Lemma select_outputs_greedy_witness :
  [info Byte.x01 30; info Byte.x02 40; info Byte.x03 90] <> []
  /\ u64_values [info Byte.x01 30; info Byte.x02 40; info Byte.x03 90] = true
  /\ is_u64 100
  /\ select_outputs [info Byte.x01 30; info Byte.x02 40; info Byte.x03 90] 100 greedy
     = returned (mk_select_outputs_result
          (map point (firstn 2 (sort_desc
             [info Byte.x01 30; info Byte.x02 40; info Byte.x03 90])))
          (info_value_sum (firstn 2 (sort_desc
             [info Byte.x01 30; info Byte.x02 40; info Byte.x03 90])) - 100)).
Proof.
  split; [discriminate|]. split; [reflexivity|]. split; [unfold is_u64; lia|].
  refine (proj2 (proj2 (proj2 (select_outputs_greedy
            [info Byte.x01 30; info Byte.x02 40; info Byte.x03 90] 100
            ltac:(discriminate) ltac:(reflexivity) ltac:(unfold is_u64; lia))
            _)) 1%nat _ _).
  - intros c Hc. simpl in Hc.
    destruct Hc as [<-|[<-|[<-|[]]]]; simpl; lia.
  - simpl. lia.
  - simpl. lia.
Defined.

(** C4: no candidate covers the target [2^64 - 1], the two candidates
    together do, but the wrapped running sum [2^64 - 4] stays below the
    target and the selection fails. *)
Lemma select_outputs_wrap_cex :
  (forall c, In c big_unspent -> info_value c < 2 ^ 64 - 1)
  /\ 2 ^ 64 - 1 <= info_value_sum (firstn 2 (sort_desc big_unspent))
  /\ select_outputs big_unspent (2 ^ 64 - 1) greedy = returned empty_result.
Proof.
  split; [|split; [simpl; lia|reflexivity]].
  intros c Hc. simpl in Hc. destruct Hc as [<-|[<-|[]]]; simpl; lia.
Qed.

(** C5 (corrected).  The greedy selection always returns (no exception),
    and, when the candidate values add up to less than [2^64], its points
    are empty exactly when the list is empty or the values add up to less
    than the target. *)
Theorem select_outputs_failure (unspent : output_info_list) (min_value : Z)
    (Hvals : u64_values unspent = true) (Hmin : is_u64 min_value)
    (Hsum : info_value_sum unspent < 2 ^ 64) :
  exists r, select_outputs unspent min_value greedy = returned r
    /\ (points r = [] <-> unspent = [] \/ info_value_sum unspent < min_value).
Proof.
  pose proof (u64_values_nonneg _ Hvals) as Hnn.
  unfold is_u64 in Hmin.
  destruct unspent as [|u rest] eqn:Eu.
  - exists empty_result. split; [reflexivity|]. simpl. tauto.
  - rewrite <- Eu in *. assert (Hne : unspent <> []) by (subst; discriminate).
    destruct (all_below_or_some_above unspent min_value) as [Hex|Hall].
    + destruct (select_outputs_greater unspent min_value Hex)
        as [c [Hc [Hcv [_ Hsel]]]].
      eexists. split; [exact Hsel|]. simpl.
      pose proof (info_value_sum_in unspent c Hnn Hc).
      split; [discriminate|]. intros [E|E]; [congruence|lia].
    + rewrite select_outputs_lesser by assumption.
      set (s := sort_desc unspent).
      assert (Ps : Permutation s unspent) by apply sort_desc_perm.
      assert (Ns : nonneg_values s)
        by (apply (nonneg_values_perm unspent); [symmetry|]; assumption).
      assert (Ss : info_value_sum s = info_value_sum unspent)
        by (apply info_value_sum_perm; exact Ps).
      destruct (Z.lt_ge_cases (info_value_sum unspent) min_value) as [L|L].
      * rewrite accumulate_short by (assumption || lia).
        eexists. split; [reflexivity|]. simpl. tauto.
      * assert (Hpos : 0 < min_value).
        { assert (In u unspent) as Hu by (subst; left; reflexivity).
          specialize (Hall u Hu).
          pose proof (proj1 (Forall_forall _ _) Hnn u Hu). simpl in *. lia. }
        destruct (first_reaching_prefix s min_value Hpos ltac:(lia))
          as [k [Hk1 Hk2]].
        pose proof (info_value_sum_firstn_le (S k) s Ns).
        rewrite (accumulate_reach min_value s 0 [] k)
          by (assumption || lia).
        eexists. split; [reflexivity|]. simpl.
        assert (s <> []) as Hs.
        { intros E. rewrite E in Ps. apply Permutation_nil in Ps. congruence. }
        destruct s as [|x s']; [congruence|]. simpl.
        split; [discriminate|]. intros [E|E]; [congruence|lia].
Qed.

Lemma select_outputs_failure_witness :
  u64_values [info Byte.x01 30; info Byte.x02 40] = true
  /\ is_u64 100
  /\ info_value_sum [info Byte.x01 30; info Byte.x02 40] < 2 ^ 64
  /\ exists r, select_outputs [info Byte.x01 30; info Byte.x02 40] 100 greedy
               = returned r
     /\ (points r = [] <-> [info Byte.x01 30; info Byte.x02 40] = []
         \/ info_value_sum [info Byte.x01 30; info Byte.x02 40] < 100).
Proof.
  split; [reflexivity|]. split; [unfold is_u64; lia|].
  split; [simpl; lia|].
  apply (select_outputs_failure [info Byte.x01 30; info Byte.x02 40] 100);
    [reflexivity | unfold is_u64; lia | simpl; lia].
Defined.

(** C5: the two candidates add up to more than the target [2^64 - 1], yet
    the selection fails. *)
Lemma select_outputs_false_failure_cex :
  big_unspent <> []
  /\ 2 ^ 64 - 1 <= info_value_sum big_unspent
  /\ select_outputs big_unspent (2 ^ 64 - 1) greedy = returned empty_result.
Proof.
  split; [discriminate|]. split; [simpl; lia|reflexivity].
Qed.

(** C10.  The only strategy is [greedy]: the call stops on the assertion,
    before any selection, exactly when the strategy is not [greedy]; with
    [greedy] the assertion never fires and the call returns on every
    input. *)
Theorem select_outputs_assert (unspent : output_info_list) (min_value : Z) :
  forall alg,
    select_outputs unspent min_value alg = assertion_failed <-> alg <> greedy.
Proof.
  intros alg. unfold select_outputs.
  destruct (select_outputs_algorithm_eq_dec alg greedy) as [E|N].
  - split; [discriminate|]. intros H. contradiction.
  - split; [intros _; exact N|reflexivity].
Qed.

(** ** Witnesses for the merkle and finality claims *)

Lemma merkle_root_odd_dup_witness :
  Nat.odd (length [dg Byte.x01; dg Byte.x02; dg Byte.x03]) = true
  /\ (3 <= length [dg Byte.x01; dg Byte.x02; dg Byte.x03])%nat
  /\ merkle_root toy_hash [dg Byte.x01; dg Byte.x02; dg Byte.x03]
     = merkle_root toy_hash [dg Byte.x01; dg Byte.x02; dg Byte.x03; dg Byte.x03].
Proof.
  split; [reflexivity|]. split; [simpl; lia|].
  apply (merkle_root_odd_dup toy_hash [dg Byte.x01; dg Byte.x02; dg Byte.x03]);
    [reflexivity | simpl; lia].
Defined.

Lemma merkle_root_small_witness :
  length (dg Byte.x01) = hash_digest_size
  /\ length (dg Byte.x02) = hash_digest_size
  /\ merkle_root toy_hash [dg Byte.x01; dg Byte.x02]
     = toy_hash (dg Byte.x01 ++ dg Byte.x02).
Proof.
  split; [reflexivity|]. split; [reflexivity|].
  apply (merkle_root_small toy_hash (dg Byte.x01) (dg Byte.x02));
    reflexivity.
Defined.

Lemma is_final_unelapsed_witness :
  locktime pending_tx <> 0
  /\ is_u64 50
  /\ ~ locktime pending_tx < (if locktime pending_tx <? locktime_threshold
                              then 50 else 0)
  /\ (is_final pending_tx 50 0 = true
      <-> Forall (fun tx_input => sequence tx_input = u32_max)
            (inputs pending_tx)).
Proof.
  split; [discriminate|]. split; [unfold is_u64; lia|].
  split; [simpl; lia|].
  apply (is_final_unelapsed pending_tx 50 0);
    [discriminate | unfold is_u64; lia | simpl; lia].
Defined.

Example satoshi_to_btc_examples :
  satoshi_to_btc 0 = returned ["0"%char]
  /\ satoshi_to_btc 150000000 = returned ["1"; "."; "5"]%char
  /\ satoshi_to_btc 1
     = returned ["0"; "."; "0"; "0"; "0"; "0"; "0"; "0"; "0"; "1"]%char
  /\ satoshi_to_btc 1234567800
     = returned ["1"; "2"; "."; "3"; "4"; "5"; "6"; "7"; "8"]%char.
Proof. vm_compute. repeat split. Qed.

(** ** Amount formatting: lemmas *)

Lemma parse_uint_chars (acc : Z) (d : Decimal.uint) :
  parse_digits acc (uint_chars d) = Some (uint_value acc d).
Proof.
  revert acc. induction d; intros acc; simpl; rewrite ?Z.add_0_r; auto.
Qed.

Lemma of_uint_acc_value (d : Decimal.uint) (p : positive) :
  Zpos (Pos.of_uint_acc d p) = uint_value (Zpos p) d.
Proof.
  revert p. induction d; intros p; cbn [Pos.of_uint_acc uint_value];
    try reflexivity; rewrite IHd; f_equal; lia.
Qed.

Lemma of_uint_value (d : Decimal.uint) :
  Z.of_N (Pos.of_uint d) = uint_value 0 d.
Proof.
  induction d; simpl; try reflexivity; try exact IHd;
    apply of_uint_acc_value.
Qed.

Lemma lexical_cast_u64_value (n : Z) :
  0 <= n -> parse_digits 0 (lexical_cast_u64 n) = Some n.
Proof.
  intros H. unfold lexical_cast_u64. rewrite parse_uint_chars.
  rewrite <- of_uint_value. change (Pos.of_uint (N.to_uint (Z.to_N n)))
    with (N.of_uint (N.to_uint (Z.to_N n))).
  rewrite DecimalN.Unsigned.of_to, Z2N.id by exact H. reflexivity.
Qed.

Lemma uint_chars_no_dot (d : Decimal.uint) : ~ In "."%char (uint_chars d).
Proof.
  induction d; simpl; [tauto| ..]; intros [E|E]; try discriminate; tauto.
Qed.

Lemma split_dot_none (l : list ascii) :
  ~ In "."%char l -> split_dot l = (l, None).
Proof.
  induction l as [|c rest IH]; intros H; [reflexivity|]. simpl.
  destruct (Ascii.eqb_spec c "."%char) as [E|E].
  - subst. exfalso. apply H. left. reflexivity.
  - rewrite IH; [reflexivity|]. intros Hin. apply H. right. exact Hin.
Qed.

Lemma split_dot_some (l r : list ascii) :
  ~ In "."%char l -> split_dot (l ++ "."%char :: r) = (l, Some r).
Proof.
  induction l as [|c rest IH]; intros H; [reflexivity|]. simpl.
  destruct (Ascii.eqb_spec c "."%char) as [E|E].
  - subst. exfalso. apply H. left. reflexivity.
  - rewrite IH; [reflexivity|]. intros Hin. apply H. right. exact Hin.
Qed.

Lemma uint_value_lower (acc : Z) (d : Decimal.uint) :
  0 <= acc ->
  acc * 10 ^ Z.of_nat (length (uint_chars d)) <= uint_value acc d.
Proof.
  revert acc. induction d; intros acc Hacc; simpl length; cbn [uint_value];
    [lia| ..];
    rewrite Nat2Z.inj_succ, Z.pow_succ_r by lia;
    match goal with
    | |- _ <= uint_value ?a _ =>
        specialize (IHd a ltac:(lia));
        pose proof (Z.pow_nonneg 10 (Z.of_nat (length (uint_chars d))))
    end; nia.
Qed.

Lemma nzhead_lead (d : Decimal.uint) :
  match Decimal.nzhead d with Decimal.D0 _ => False | _ => True end.
Proof. induction d; simpl; auto. Qed.

(** A positive amount below [10^8] has at most 8 decimal digits. *)
Lemma lexical_cast_u64_length (m : Z) :
  0 < m < 10 ^ 8 -> (length (lexical_cast_u64 m) <= 8)%nat.
Proof.
  intros Hm. unfold lexical_cast_u64.
  set (d := N.to_uint (Z.to_N m)).
  assert (Hd : d = Decimal.unorm d).
  { unfold d. rewrite <- DecimalN.Unsigned.to_of, DecimalN.Unsigned.of_to.
    reflexivity. }
  assert (Hv : uint_value 0 d = m).
  { rewrite <- of_uint_value. unfold d.
    change (Pos.of_uint (N.to_uint (Z.to_N m)))
      with (N.of_uint (N.to_uint (Z.to_N m))).
    rewrite DecimalN.Unsigned.of_to, Z2N.id by lia. reflexivity. }
  pose proof (nzhead_lead d) as Hl.
  unfold Decimal.unorm in Hd.
  destruct (Decimal.nzhead d) as [|d'|d'|d'|d'|d'|d'|d'|d'|d'|d'] eqn:E;
    try contradiction;
    [rewrite Hd in Hv; simpl in Hv; lia| ..];
    rewrite Hd in Hv |- *; simpl in Hv |- *;
    match type of Hv with
    | uint_value ?a _ = _ =>
        pose proof (uint_value_lower a d' ltac:(lia)) as B
    end;
    rewrite Hv in B;
    assert (10 ^ Z.of_nat (length (uint_chars d')) < 10 ^ 8) as P by lia;
    apply Z.pow_lt_mono_r_iff in P; lia.
Qed.

Lemma drop_zeros_prefix (l : list ascii) :
  exists j, l = repeat "0"%char j ++ drop_zeros l.
Proof.
  induction l as [|c rest [j IH]]; [exists 0%nat; reflexivity|]. simpl.
  destruct (Ascii.eqb_spec c "0"%char) as [E|E].
  - subst. exists (S j). simpl. f_equal. exact IH.
  - exists 0%nat. reflexivity.
Qed.

Lemma trim_right_zeros_suffix (s : list ascii) :
  exists j, s = trim_right_zeros s ++ repeat "0"%char j.
Proof.
  destruct (drop_zeros_prefix (rev s)) as [j H]. exists j.
  unfold trim_right_zeros. set (t := drop_zeros (rev s)) in *.
  rewrite <- (rev_involutive s), H, rev_app_distr, rev_repeat. reflexivity.
Qed.

Lemma parse_digits_app (acc : Z) (l1 l2 : list ascii) :
  parse_digits acc (l1 ++ l2)
  = match parse_digits acc l1 with
    | Some a => parse_digits a l2
    | None => None
    end.
Proof.
  revert acc. induction l1 as [|c rest IH]; intros acc; [reflexivity|]. simpl.
  destruct (digit_value c); [apply IH|reflexivity].
Qed.

Lemma parse_digits_zeros (acc : Z) (j : nat) :
  parse_digits acc (repeat "0"%char j) = Some (acc * 10 ^ Z.of_nat j).
Proof.
  revert acc. induction j as [|j IH]; intros acc.
  - simpl. f_equal. lia.
  - rewrite Nat2Z.inj_succ, Z.pow_succ_r by lia.
    change (repeat "0"%char (S j)) with ("0"%char :: repeat "0"%char j).
    cbn [parse_digits]. change (digit_value "0"%char) with (Some 0).
    cbv beta iota. rewrite IH. f_equal. lia.
Qed.

(** [satoshi_to_btc] splits [value] into whole coins and the remainder
    below one coin, with no wrap-around. *)
Lemma satoshi_to_btc_split (value : Z) :
  is_u64 value ->
  wrap64 (value - wrap64 (value / coin_price 1 * coin_price 1))
  = value mod 100000000
  /\ value = value / 100000000 * 100000000 + value mod 100000000
  /\ 0 <= value / 100000000
  /\ 0 <= value mod 100000000 < 10 ^ 8.
Proof.
  intros H. unfold is_u64 in H. change (coin_price 1) with 100000000.
  pose proof (Z.div_mod value 100000000 ltac:(lia)) as D.
  pose proof (Z.mod_pos_bound value 100000000 ltac:(lia)) as M.
  assert (0 <= value / 100000000) by (apply Z.div_pos; lia).
  rewrite (wrap64_small (value / 100000000 * 100000000)) by lia.
  rewrite wrap64_small by lia.
  split; [lia|]. split; [lia|]. split; [lia|]. change (10 ^ 8) with 100000000. lia.
Qed.

(** On a 64-bit amount both assertions of [satoshi_to_btc] hold, and it
    returns the whole coins, then, when the remainder is not zero, a point
    and the remainder padded to 8 digits with its trailing zeros cut. *)
Lemma satoshi_to_btc_returned (value : Z) :
  is_u64 value ->
  satoshi_to_btc value
  = returned (if 0 <? value mod 100000000 then
                lexical_cast_u64 (value / 100000000) ++ "."%char
                  :: trim_right_zeros
                       (repeat "0"%char
                          (8 - length (lexical_cast_u64 (value mod 100000000)))
                        ++ lexical_cast_u64 (value mod 100000000))
              else lexical_cast_u64 (value / 100000000)).
Proof.
  intros H. destruct (satoshi_to_btc_split value H) as [Hmin [Hdm [Hmaj Hmb]]].
  unfold satoshi_to_btc. rewrite Hmin. change (coin_price 1) with 100000000.
  replace (value <? value / 100000000) with false
    by (symmetry; apply Z.ltb_ge; lia).
  replace (100000000 <=? value mod 100000000) with false
    by (symmetry; apply Z.leb_gt; change (10 ^ 8) with 100000000 in Hmb; lia).
  destruct (0 <? value mod 100000000); reflexivity.
Qed.

(** On a 64-bit amount [satoshi_to_btc] returns (no assertion fails) a
    decimal text that reads back, as whole coins and at most 8 fractional
    digits, to the same amount. *)
Theorem satoshi_to_btc_roundtrip (value : Z) (H : is_u64 value) :
  exists text, satoshi_to_btc value = returned text
    /\ btc_to_satoshi text = Some value.
Proof.
  destruct (satoshi_to_btc_split value H) as [Hmin [Hdm [Hmaj Hmb]]].
  rewrite satoshi_to_btc_returned by exact H.
  eexists. split; [reflexivity|].
  set (major := value / 100000000) in *.
  set (minor := value mod 100000000) in *.
  destruct (0 <? minor) eqn:P.
  - apply Z.ltb_lt in P.
    pose proof (lexical_cast_u64_length minor ltac:(lia)) as Lm.
    set (ms := lexical_cast_u64 minor) in *.
    set (padded := repeat "0"%char (8 - length ms) ++ ms).
    destruct (trim_right_zeros_suffix padded) as [j Hj].
    set (t := trim_right_zeros padded) in *.
    assert (Hlen : (length t + j = 8)%nat).
    { apply (f_equal (@length ascii)) in Hj.
      unfold padded in Hj. rewrite !length_app, !repeat_length in Hj. lia. }
    assert (Hp : parse_digits 0 padded = Some minor).
    { unfold padded. rewrite parse_digits_app, parse_digits_zeros.
      simpl Z.mul. apply lexical_cast_u64_value. lia. }
    rewrite Hj, parse_digits_app in Hp.
    unfold btc_to_satoshi.
    rewrite split_dot_some by apply uint_chars_no_dot.
    replace (Nat.leb (length t) 8) with true
      by (symmetry; apply Nat.leb_le; lia).
    rewrite lexical_cast_u64_value by exact Hmaj.
    destruct (parse_digits 0 t) as [f|]; [|discriminate].
    rewrite parse_digits_zeros in Hp. injection Hp as Hp.
    replace (8 - length t)%nat with j by lia.
    f_equal. lia.
  - apply Z.ltb_ge in P.
    unfold btc_to_satoshi.
    rewrite split_dot_none by apply uint_chars_no_dot.
    rewrite lexical_cast_u64_value by exact Hmaj.
    f_equal. lia.
Qed.

Lemma satoshi_to_btc_roundtrip_witness :
  is_u64 1234567800
  /\ exists text, satoshi_to_btc 1234567800 = returned text
       /\ btc_to_satoshi text = Some 1234567800.
Proof.
  split; [unfold is_u64; lia|].
  apply satoshi_to_btc_roundtrip. unfold is_u64; lia.
Defined.

Lemma drop_zeros_head (l : list ascii) :
  match drop_zeros l with c :: _ => c <> "0"%char | [] => True end.
Proof.
  induction l as [|c rest IH]; simpl; [exact I|].
  destruct (Ascii.eqb_spec c "0"%char) as [E|E]; [exact IH|exact E].
Qed.

Lemma trim_right_zeros_last (s : list ascii) :
  trim_right_zeros s <> [] -> last (trim_right_zeros s) "0"%char <> "0"%char.
Proof.
  unfold trim_right_zeros. pose proof (drop_zeros_head (rev s)) as H.
  destruct (drop_zeros (rev s)) as [|c rest]; [contradiction|].
  intros _. simpl. rewrite last_last. exact H.
Qed.

(** The text of [satoshi_to_btc] is canonical: whole coins are written
    without a point; otherwise the point is followed by one to eight
    digits, the last of which is not [0]. *)
Theorem satoshi_to_btc_canonical (value : Z) (H : is_u64 value) :
  (value mod 100000000 = 0 ->
   satoshi_to_btc value = returned (lexical_cast_u64 (value / 100000000)))
  /\ (value mod 100000000 <> 0 ->
      exists frac, satoshi_to_btc value
                   = returned (lexical_cast_u64 (value / 100000000)
                               ++ "."%char :: frac)
        /\ frac <> [] /\ (length frac <= 8)%nat
        /\ last frac "0"%char <> "0"%char).
Proof.
  destruct (satoshi_to_btc_split value H) as [Hmin [Hdm [Hmaj Hmb]]].
  rewrite satoshi_to_btc_returned by exact H.
  set (major := value / 100000000) in *.
  set (minor := value mod 100000000) in *.
  split.
  - intros Z0. rewrite Z0. reflexivity.
  - intros NZ. replace (0 <? minor) with true by (symmetry; apply Z.ltb_lt; lia).
    pose proof (lexical_cast_u64_length minor ltac:(lia)) as Lm.
    set (ms := lexical_cast_u64 minor) in *.
    set (padded := repeat "0"%char (8 - length ms) ++ ms).
    destruct (trim_right_zeros_suffix padded) as [j Hj].
    assert (Hp : parse_digits 0 padded = Some minor).
    { unfold padded. rewrite parse_digits_app, parse_digits_zeros.
      simpl Z.mul. apply lexical_cast_u64_value. lia. }
    assert (Ht : trim_right_zeros padded <> []).
    { intros E. rewrite E in Hj. rewrite Hj, app_nil_l, parse_digits_zeros in Hp.
      injection Hp as Hp. lia. }
    exists (trim_right_zeros padded). split; [reflexivity|].
    split; [exact Ht|]. split.
    + apply (f_equal (@length ascii)) in Hj.
      unfold padded in Hj. rewrite !length_app, !repeat_length in Hj.
      unfold padded. lia.
    + apply trim_right_zeros_last. exact Ht.
Qed.

Lemma satoshi_to_btc_canonical_witness :
  is_u64 150000000
  /\ exists frac, satoshi_to_btc 150000000
                  = returned (lexical_cast_u64 (150000000 / 100000000)
                              ++ "."%char :: frac)
       /\ frac <> [] /\ (length frac <= 8)%nat
       /\ last frac "0"%char <> "0"%char.
Proof.
  split; [unfold is_u64; lia|].
  apply (proj2 (satoshi_to_btc_canonical 150000000
                  ltac:(unfold is_u64; lia))).
  discriminate.
Defined.

(** ** Finality at later heights and times *)

(** With heights that fit in 32 bits, a transaction final at some block
    height and time stays final at any later height and time. *)
Theorem is_final_monotone (tx : transaction_type) (h h' t t' : Z)
    (Hh : 0 <= h <= h') (Hh' : h' < 2 ^ 32) (Ht : t <= t') :
  is_final tx h t = true -> is_final tx h' t' = true.
Proof.
  unfold is_final, wrap32.
  rewrite (Z.mod_small h) by lia. rewrite (Z.mod_small h') by lia.
  destruct (locktime tx =? 0); [reflexivity|].
  destruct (locktime tx <? locktime_threshold).
  - destruct (locktime tx <? h) eqn:A.
    + apply Z.ltb_lt in A. replace (locktime tx <? h') with true
        by (symmetry; apply Z.ltb_lt; lia). reflexivity.
    + intros F. destruct (locktime tx <? h'); [reflexivity|exact F].
  - destruct (locktime tx <? t) eqn:A.
    + apply Z.ltb_lt in A. replace (locktime tx <? t') with true
        by (symmetry; apply Z.ltb_lt; lia). reflexivity.
    + intros F. destruct (locktime tx <? t'); [reflexivity|exact F].
Qed.

Lemma is_final_monotone_witness :
  (0 <= 50 <= 60 /\ 60 < 2 ^ 32 /\ 0 <= 5)
  /\ (is_final height_locked_tx 50 0 = true
      -> is_final height_locked_tx 60 5 = true).
Proof.
  split; [lia|].
  apply (is_final_monotone height_locked_tx 50 60 0 5); lia.
Defined.

(** A transaction with a zero lock time, or whose inputs all carry the
    final sequence number [0xffffffff], is final at every height and
    time. *)
Theorem is_final_all_inputs (tx : transaction_type)
    (H : locktime tx = 0 \/ Forall (fun tx_input => sequence tx_input = u32_max)
                               (inputs tx)) :
  forall block_height block_time, is_final tx block_height block_time = true.
Proof.
  intros block_height block_time. unfold is_final.
  destruct H as [H|H].
  - rewrite H. reflexivity.
  - assert (F : forallb is_final_input (inputs tx) = true).
    { apply forallb_forall. intros x Hx. unfold is_final_input.
      apply Z.eqb_eq. exact (proj1 (Forall_forall _ _) H x Hx). }
    rewrite F. destruct (locktime tx =? 0); [reflexivity|].
    destruct (locktime tx <? _); reflexivity.
Qed.

Lemma is_final_all_inputs_witness :
  (locktime pending_tx = 0
   \/ Forall (fun tx_input => sequence tx_input = u32_max) [inp u32_max])
  /\ is_final (mk_transaction 1 100 [inp u32_max] []) 0 0 = true.
Proof.
  split; [right; repeat constructor|].
  apply (is_final_all_inputs (mk_transaction 1 100 [inp u32_max] [])).
  right. repeat constructor.
Defined.

(** ** The hash type code in the transaction hash *)

Lemma byte_of_Z_value (z : Z) : Z.of_N (Byte.to_N (byte_of_Z z)) = z mod 256.
Proof.
  pose proof (Z.mod_pos_bound z 256 ltac:(lia)) as M.
  unfold byte_of_Z. destruct (Byte.of_N (Z.to_N (z mod 256))) as [b|] eqn:E.
  - apply Byte.to_of_N in E. rewrite E, Z2N.id by lia. reflexivity.
  - apply Byte.of_N_None_iff in E. apply N2Z.inj_lt in E.
    rewrite Z2N.id in E by lia. simpl in E. lia.
Qed.

Lemma uncast_type_inj (c1 c2 : Z) :
  is_u32 c1 -> is_u32 c2 -> uncast_type c1 = uncast_type c2 -> c1 = c2.
Proof.
  unfold is_u32. intros H1 H2 E. unfold uncast_type in E. cbn [map] in E.
  injection E as E0 E1 E2 E3.
  apply (f_equal (fun b => Z.of_N (Byte.to_N b))) in E0, E1, E2, E3.
  rewrite !byte_of_Z_value, !Z.shiftr_div_pow2 in * by lia.
  cbn in E0, E1, E2, E3. rewrite !Z.div_1_r in E0.
  Z.div_mod_to_equations. lia.
Qed.

(** For a given transaction, the bytes hashed under two 32-bit hash type
    codes are the same only when the codes are equal, and a typed
    preimage is the untyped one with four more bytes. *)
Theorem transaction_preimage_type_code
    (satoshi_save : transaction_type -> data_chunk) (tx : transaction_type)
    (c1 c2 : Z) (H1 : is_u32 c1) (H2 : is_u32 c2) :
  (transaction_preimage satoshi_save tx (Some c1)
   = transaction_preimage satoshi_save tx (Some c2) <-> c1 = c2)
  /\ transaction_preimage satoshi_save tx (Some c1)
     = transaction_preimage satoshi_save tx None ++ uncast_type c1
  /\ length (transaction_preimage satoshi_save tx (Some c1))
     = (length (transaction_preimage satoshi_save tx None) + 4)%nat.
Proof.
  unfold transaction_preimage, extend_data. split; [|split; [reflexivity|]].
  - split; [|intros ->; reflexivity].
    intros E. apply app_inv_head in E. apply uncast_type_inj; assumption.
  - rewrite length_app. reflexivity.
Qed.

Lemma transaction_preimage_type_code_witness :
  is_u32 1 /\ is_u32 2
  /\ (transaction_preimage (fun _ => []) pending_tx (Some 1)
      = transaction_preimage (fun _ => []) pending_tx (Some 2) <-> 1 = 2).
Proof.
  split; [unfold is_u32; lia|]. split; [unfold is_u32; lia|].
  apply (transaction_preimage_type_code (fun _ => []) pending_tx 1 2);
    unfold is_u32; lia.
Defined.

(** ** Duplicated last transaction in [generate_merkle_root] *)

Lemma merkle_root_dup_last (sha : data_chunk -> hash_digest) (l : hash_list) :
  Nat.odd (length l) = true -> (3 <= length l)%nat ->
  merkle_root sha (l ++ [last l null_hash]) = merkle_root sha l.
Proof.
  intros Hodd H3.
  set (l' := l ++ [last l null_hash]).
  assert (Hl' : length l' = S (length l))
    by (unfold l'; rewrite length_app; simpl; lia).
  assert (Hd : dup_odd l = l') by (unfold dup_odd; rewrite Hodd; reflexivity).
  assert (Hd' : dup_odd l' = l').
  { unfold dup_odd. rewrite Hl', Nat.odd_succ, <- Nat.negb_odd, Hodd.
    reflexivity. }
  unfold merkle_root.
  rewrite (build_merkle_tree_long sha l) by lia.
  rewrite (build_merkle_tree_long sha l') by lia.
  simpl. f_equal.
  destruct (length l) as [|k] eqn:E; [lia|].
  rewrite Hl'.
  rewrite (merkle_loop_step sha k l) by lia.
  rewrite (merkle_loop_step sha (S k) l') by lia.
  rewrite Hd, Hd'.
  pose proof (level_shrinks sha l ltac:(lia)) as B.
  rewrite Hd in B.
  symmetry. apply merkle_loop_fuel; lia.
Qed.

Lemma last_map_nonempty {A B : Type} (f : A -> B) (l : list A) (d : A) (d' : B) :
  l <> [] -> last (map f l) d' = f (last l d).
Proof.
  induction l as [|x rest IH]; intros H; [congruence|].
  destruct rest as [|y rest']; [reflexivity|].
  change (last (map f (x :: y :: rest')) d') with (last (map f (y :: rest')) d').
  change (last (x :: y :: rest') d) with (last (y :: rest') d).
  apply IH. discriminate.
Qed.

(** In a block with an odd number (at least three) of transactions,
    appending a copy of the last transaction leaves the merkle root
    unchanged: two different transaction lists share a root. *)
Theorem generate_merkle_root_dup_last
    (satoshi_save : transaction_type -> data_chunk)
    (sha : data_chunk -> hash_digest)
    (transactions : list transaction_type) (tx0 : transaction_type)
    (Hodd : Nat.odd (length transactions) = true)
    (H3 : (3 <= length transactions)%nat) :
  generate_merkle_root satoshi_save sha
    (transactions ++ [last transactions tx0])
  = generate_merkle_root satoshi_save sha transactions.
Proof.
  unfold generate_merkle_root. rewrite map_app. cbn [map].
  set (hs := map (hash_transaction satoshi_save sha) transactions).
  assert (Hl : length hs = length transactions) by apply length_map.
  rewrite <- (last_map_nonempty (hash_transaction satoshi_save sha)
                transactions tx0 null_hash)
    by (intros E; rewrite E in H3; simpl in H3; lia).
  fold hs. apply (merkle_root_dup_last sha hs); rewrite Hl; assumption.
Qed.

Lemma generate_merkle_root_dup_last_witness :
  Nat.odd (length [wrapping_tx; height_locked_tx; pending_tx]) = true
  /\ (3 <= length [wrapping_tx; height_locked_tx; pending_tx])%nat
  /\ generate_merkle_root (fun _ => []) toy_hash
       [wrapping_tx; height_locked_tx; pending_tx; pending_tx]
     = generate_merkle_root (fun _ => []) toy_hash
         [wrapping_tx; height_locked_tx; pending_tx].
Proof.
  split; [reflexivity|]. split; [simpl; lia|].
  apply (generate_merkle_root_dup_last (fun _ => []) toy_hash
           [wrapping_tx; height_locked_tx; pending_tx] wrapping_tx);
    [reflexivity | simpl; lia].
Defined.

(** ** Value balance of [select_outputs] *)

(** When the candidate values are 64-bit and add up to less than [2^64], a
    greedy selection that returns points takes them from distinct
    candidates whose values add up to the target plus the change; a
    selection that returns no points has zero change. *)
Theorem select_outputs_balance (unspent : output_info_list) (min_value : Z)
    (Hvals : u64_values unspent = true) (Hmin : is_u64 min_value)
    (Hsum : info_value_sum unspent < 2 ^ 64) (r : select_outputs_result) :
  select_outputs unspent min_value greedy = returned r ->
  (points r = [] -> change r = 0)
  /\ (points r <> [] ->
      exists selected rest, Permutation unspent (selected ++ rest)
        /\ points r = map point selected
        /\ info_value_sum selected = min_value + change r).
Proof.
  intros Hr.
  pose proof (u64_values_nonneg _ Hvals) as Hnn.
  unfold is_u64 in Hmin.
  destruct unspent as [|u rest0] eqn:Eu.
  - injection Hr as <-. split; [reflexivity|]. simpl. congruence.
  - rewrite <- Eu in *. assert (Hne : unspent <> []) by (subst; discriminate).
    destruct (all_below_or_some_above unspent min_value) as [Hex|Hall].
    + destruct (select_outputs_greater unspent min_value Hex)
        as [c [Hc [Hcv [_ Hsel]]]].
      rewrite Hsel in Hr. injection Hr as <-. simpl.
      split; [discriminate|]. intros _.
      pose proof (u64_values_bound _ _ Hvals Hc) as B. unfold is_u64 in B.
      apply in_split in Hc as [l1 [l2 Hc]].
      exists [c], (l1 ++ l2). split; [|split; [reflexivity|]].
      * rewrite Hc. simpl. symmetry. apply Permutation_middle.
      * rewrite wrap64_small by lia. simpl. lia.
    + rewrite select_outputs_lesser in Hr by assumption.
      injection Hr as Hr.
      set (s := sort_desc unspent) in *.
      assert (Ps : Permutation s unspent) by apply sort_desc_perm.
      assert (Ns : nonneg_values s)
        by (apply (nonneg_values_perm unspent); [symmetry|]; assumption).
      assert (Ss : info_value_sum s = info_value_sum unspent)
        by (apply info_value_sum_perm; exact Ps).
      destruct (Z.lt_ge_cases (info_value_sum unspent) min_value) as [L|L].
      * rewrite accumulate_short in Hr by (assumption || lia).
        subst r. split; [reflexivity|]. simpl. congruence.
      * assert (Hpos : 0 < min_value).
        { assert (In u unspent) as Hu by (subst; left; reflexivity).
          specialize (Hall u Hu).
          pose proof (proj1 (Forall_forall _ _) Hnn u Hu). simpl in *. lia. }
        destruct (first_reaching_prefix s min_value Hpos ltac:(lia))
          as [k [Hk1 Hk2]].
        pose proof (info_value_sum_firstn_le (S k) s Ns).
        rewrite (accumulate_reach min_value s 0 [] k) in Hr
          by (assumption || lia).
        subst r. simpl.
        assert (s <> []) as Hs.
        { intros E. rewrite E in Ps. apply Permutation_nil in Ps. congruence. }
        split.
        { destruct s as [|x s']; [congruence|]. simpl. discriminate. }
        intros _. exists (firstn (S k) s), (skipn (S k) s).
        split; [|split; [reflexivity|simpl; lia]].
        rewrite firstn_skipn. symmetry. exact Ps.
Qed.

Lemma select_outputs_balance_witness :
  u64_values [info Byte.x01 30; info Byte.x02 40] = true
  /\ is_u64 60
  /\ info_value_sum [info Byte.x01 30; info Byte.x02 40] < 2 ^ 64
  /\ select_outputs [info Byte.x01 30; info Byte.x02 40] 60 greedy
     = returned (mk_select_outputs_result [op Byte.x02 0; op Byte.x01 0] 10)
  /\ ((points (mk_select_outputs_result [op Byte.x02 0; op Byte.x01 0] 10) = []
       -> change (mk_select_outputs_result [op Byte.x02 0; op Byte.x01 0] 10) = 0)
      /\ (points (mk_select_outputs_result [op Byte.x02 0; op Byte.x01 0] 10) <> []
          -> exists selected rest,
               Permutation [info Byte.x01 30; info Byte.x02 40] (selected ++ rest)
               /\ points (mk_select_outputs_result
                            [op Byte.x02 0; op Byte.x01 0] 10)
                  = map point selected
               /\ info_value_sum selected
                  = 60 + change (mk_select_outputs_result
                                   [op Byte.x02 0; op Byte.x01 0] 10))).
Proof.
  split; [reflexivity|]. split; [unfold is_u64; lia|].
  split; [simpl; lia|]. split; [reflexivity|].
  apply (select_outputs_balance [info Byte.x01 30; info Byte.x02 40] 60);
    [reflexivity | unfold is_u64; lia | simpl; lia | reflexivity].
Defined.

(** ** Hex decoding *)

Lemma drop_spaces_app (a b : list ascii) :
  drop_spaces (a ++ b)
  = match drop_spaces a with [] => drop_spaces b | l => l ++ b end.
Proof.
  induction a as [|c a IH]; [reflexivity|]. simpl.
  destruct (is_space c); [exact IH|reflexivity].
Qed.

Lemma drop_spaces_all (w : list ascii) :
  forallb is_space w = true -> drop_spaces w = [].
Proof.
  induction w as [|c w IH]; [reflexivity|]. simpl.
  intros H. apply andb_true_iff in H as [-> H]. apply IH, H.
Qed.

Lemma drop_spaces_nonspace (l : list ascii) :
  forallb (fun c => negb (is_space c)) l = true -> drop_spaces l = l.
Proof.
  destruct l as [|c l]; [reflexivity|]. simpl.
  intros H. apply andb_true_iff in H as [H _].
  apply negb_true_iff in H. rewrite H. reflexivity.
Qed.

Lemma drop_spaces_app_nonspace (a b : list ascii) (c : ascii) :
  is_space c = false -> drop_spaces (a ++ c :: b) = drop_spaces a ++ c :: b.
Proof.
  intros Hc. rewrite drop_spaces_app.
  destruct (drop_spaces a); [|reflexivity]. simpl. rewrite Hc. reflexivity.
Qed.

Lemma forallb_rev {A : Type} (f : A -> bool) (l : list A) :
  forallb f (rev l) = forallb f l.
Proof.
  induction l as [|x l IH]; [reflexivity|]. simpl.
  rewrite forallb_app, IH. simpl. rewrite andb_true_r, andb_comm. reflexivity.
Qed.

Lemma trim_spaces_around (w1 s w2 : list ascii) :
  forallb is_space w1 = true -> forallb is_space w2 = true ->
  trim (w1 ++ s ++ w2) = trim s.
Proof.
  intros H1 H2. unfold trim.
  replace (rev (w1 ++ s ++ w2)) with (rev w2 ++ (rev s ++ rev w1))
    by (rewrite !rev_app_distr, app_assoc; reflexivity).
  rewrite drop_spaces_app,
    (drop_spaces_all (rev w2)) by (rewrite forallb_rev; exact H2).
  rewrite drop_spaces_app.
  destruct (drop_spaces (rev s)) as [|c l] eqn:E.
  - rewrite (drop_spaces_all (rev w1)) by (rewrite forallb_rev; exact H1).
    reflexivity.
  - rewrite rev_app_distr, rev_involutive, drop_spaces_app,
      (drop_spaces_all w1) by exact H1.
    reflexivity.
Qed.

Lemma trim_nonspace (l : list ascii) :
  forallb (fun c => negb (is_space c)) l = true -> trim l = l.
Proof.
  intros H. unfold trim.
  rewrite (drop_spaces_nonspace (rev l)) by (rewrite forallb_rev; exact H).
  rewrite rev_involutive. apply drop_spaces_nonspace, H.
Qed.

Lemma hex_digit_spec (k : Z) :
  0 <= k < 16 -> hex_value (hex_digit k) = Some k /\ is_space (hex_digit k) = false.
Proof.
  intros H.
  assert (k = 0 \/ k = 1 \/ k = 2 \/ k = 3 \/ k = 4 \/ k = 5 \/ k = 6 \/ k = 7
          \/ k = 8 \/ k = 9 \/ k = 10 \/ k = 11 \/ k = 12 \/ k = 13 \/ k = 14
          \/ k = 15) as K by lia.
  repeat destruct K as [-> | K]; try (subst k); split; reflexivity.
Qed.

Lemma hex_text_nonspace (bytes : data_chunk) :
  forallb (fun c => negb (is_space c)) (hex_text bytes) = true.
Proof.
  induction bytes as [|b bytes IH]; [reflexivity|].
  unfold hex_text in *. cbn [flat_map]. rewrite forallb_app, IH, andb_true_r.
  pose proof (Byte.to_N_bounded b) as B. apply N2Z.inj_le in B.
  pose proof (N2Z.is_nonneg (Byte.to_N b)).
  unfold hex_pair. set (n := Z.of_N (Byte.to_N b)) in *.
  assert (Hhi : 0 <= n / 16 < 16)
    by (split; [apply Z.div_pos|apply Z.div_lt_upper_bound]; simpl in *; lia).
  assert (Hlo : 0 <= n mod 16 < 16) by (apply Z.mod_pos_bound; lia).
  cbn [forallb].
  rewrite (proj2 (hex_digit_spec _ Hhi)), (proj2 (hex_digit_spec _ Hlo)).
  reflexivity.
Qed.

Lemma byte_of_Z_to_N (b : Byte.byte) : byte_of_Z (Z.of_N (Byte.to_N b)) = b.
Proof.
  pose proof (Byte.to_N_bounded b) as B. apply N2Z.inj_le in B.
  pose proof (N2Z.is_nonneg (Byte.to_N b)).
  unfold byte_of_Z. rewrite Z.mod_small by (simpl in *; lia).
  rewrite N2Z.id, Byte.of_to_N. reflexivity.
Qed.

Lemma decode_hex_loop_app (stream_hex_int : list ascii -> Z)
    (bytes : data_chunk) (rest : list ascii) :
  reads_hex_pairs stream_hex_int ->
  decode_hex_loop stream_hex_int (hex_text bytes ++ rest)
  = match decode_hex_loop stream_hex_int rest with
    | returned (Some bs) => returned (Some (bytes ++ bs))
    | other => other
    end.
Proof.
  intros Hf. induction bytes as [|b bytes IH].
  - simpl. destruct (decode_hex_loop stream_hex_int rest) as [|[bs|]];
      reflexivity.
  - unfold hex_text in *. cbn [flat_map]. unfold hex_pair at 1.
    pose proof (Byte.to_N_bounded b) as B. apply N2Z.inj_le in B.
    set (n := Z.of_N (Byte.to_N b)) in *.
    assert (0 <= n) by apply N2Z.is_nonneg.
    assert (Hhi : 0 <= n / 16 < 16)
      by (split; [apply Z.div_pos|apply Z.div_lt_upper_bound]; simpl in *; lia).
    assert (Hlo : 0 <= n mod 16 < 16) by (apply Z.mod_pos_bound; lia).
    simpl app. cbn [decode_hex_loop].
    rewrite (Hf _ _ (n / 16) (n mod 16)) by (apply hex_digit_spec; assumption).
    rewrite <- Z.div_mod by lia.
    replace (n =? -1) with false by (symmetry; apply Z.eqb_neq; lia).
    replace (255 <? n) with false by (symmetry; apply Z.ltb_ge; simpl in B; lia).
    rewrite IH. unfold n. rewrite byte_of_Z_to_N.
    destruct (decode_hex_loop stream_hex_int rest) as [|[bs|]]; reflexivity.
Qed.

(** [decode_hex] ignores white space around its argument. *)
Theorem decode_hex_trim (stream_hex_int : list ascii -> Z)
    (w1 hex_str w2 : list ascii)
    (H1 : forallb is_space w1 = true) (H2 : forallb is_space w2 = true) :
  decode_hex stream_hex_int (w1 ++ hex_str ++ w2)
  = decode_hex stream_hex_int hex_str.
Proof.
  unfold decode_hex. rewrite trim_spaces_around by assumption. reflexivity.
Qed.

Lemma decode_hex_trim_witness :
  forallb is_space [" "; "009"]%char = true
  /\ forallb is_space ["010"]%char = true
  /\ decode_hex toy_hex_int ([" "; "009"]%char ++ ["a"; "b"]%char ++ ["010"]%char)
     = decode_hex toy_hex_int ["a"; "b"]%char.
Proof.
  split; [reflexivity|]. split; [reflexivity|].
  apply decode_hex_trim; reflexivity.
Defined.

(** When the hex extraction reads two hex digits as their value,
    [decode_hex] reads back the bytes of their hex text, and a last odd
    character is ignored. *)
Theorem decode_hex_roundtrip (stream_hex_int : list ascii -> Z)
    (Hf : reads_hex_pairs stream_hex_int) (bytes : data_chunk) :
  decode_hex stream_hex_int (hex_text bytes) = returned bytes
  /\ forall c, decode_hex stream_hex_int (hex_text bytes ++ [c])
               = returned bytes.
Proof.
  assert (Hl : forall tail, (length tail <= 1)%nat ->
            decode_hex_loop stream_hex_int (hex_text bytes ++ tail)
            = returned (Some bytes)).
  { intros tail Ht. rewrite decode_hex_loop_app by exact Hf.
    destruct tail as [|c [|c' t]]; simpl in Ht; try lia;
      simpl; rewrite app_nil_r; reflexivity. }
  pose proof (hex_text_nonspace bytes) as N.
  split.
  - unfold decode_hex. rewrite trim_nonspace by exact N.
    rewrite <- (app_nil_r (hex_text bytes)), Hl by (simpl; lia). reflexivity.
  - intros c. destruct (is_space c) eqn:Sc.
    + rewrite <- (app_nil_l (hex_text bytes ++ [c])).
      rewrite decode_hex_trim by (simpl; rewrite ?Sc; reflexivity).
      unfold decode_hex. rewrite trim_nonspace by exact N.
      rewrite <- (app_nil_r (hex_text bytes)), Hl by (simpl; lia). reflexivity.
    + unfold decode_hex. rewrite trim_nonspace
        by (rewrite forallb_app, N; simpl; rewrite Sc; reflexivity).
      rewrite Hl by (simpl; lia). reflexivity.
Qed.

Lemma decode_hex_roundtrip_witness :
  reads_hex_pairs toy_hex_int
  /\ decode_hex toy_hex_int (hex_text [Byte.x01; Byte.xab]) = returned [Byte.x01; Byte.xab].
Proof.
  assert (H : reads_hex_pairs toy_hex_int).
  { intros hi lo vh vl Hh Hl. unfold toy_hex_int. rewrite Hh, Hl. reflexivity. }
  split; [exact H|]. apply (decode_hex_roundtrip toy_hex_int H).
Defined.

(** When a pair of characters (neither of them white space) that follows
    well-formed hex text reads as [-1], [decode_hex] returns an empty
    chunk, dropping the bytes decoded before it. *)
Theorem decode_hex_error (stream_hex_int : list ascii -> Z)
    (Hf : reads_hex_pairs stream_hex_int) (bytes : data_chunk)
    (c1 c2 : ascii) (rest : list ascii)
    (Hv : stream_hex_int [c1; c2] = -1)
    (S1 : is_space c1 = false) (S2 : is_space c2 = false) :
  decode_hex stream_hex_int (hex_text bytes ++ c1 :: c2 :: rest) = returned [].
Proof.
  unfold decode_hex, trim.
  replace (rev (hex_text bytes ++ c1 :: c2 :: rest))
    with (rev rest ++ c2 :: (c1 :: rev (hex_text bytes)))
    by (rewrite rev_app_distr; simpl; rewrite <- !app_assoc; reflexivity).
  rewrite drop_spaces_app_nonspace by exact S2.
  replace (rev (drop_spaces (rev rest) ++ c2 :: c1 :: rev (hex_text bytes)))
    with (hex_text bytes ++ c1 :: c2 :: rev (drop_spaces (rev rest)))
    by (rewrite rev_app_distr; simpl; rewrite rev_involutive, <- !app_assoc;
        reflexivity).
  rewrite drop_spaces_app_nonspace by exact S1.
  rewrite drop_spaces_nonspace by apply hex_text_nonspace.
  rewrite decode_hex_loop_app by exact Hf. simpl. rewrite Hv. reflexivity.
Qed.

Lemma decode_hex_error_witness :
  reads_hex_pairs toy_hex_int
  /\ toy_hex_int ["-"; "1"]%char = -1
  /\ is_space "-"%char = false /\ is_space "1"%char = false
  /\ decode_hex toy_hex_int (hex_text [Byte.x01] ++ ["-"; "1"; "f"; "f"]%char)
     = returned [].
Proof.
  assert (H : reads_hex_pairs toy_hex_int).
  { intros hi lo vh vl Hh Hl. unfold toy_hex_int. rewrite Hh, Hl. reflexivity. }
  split; [exact H|]. split; [reflexivity|]. split; [reflexivity|].
  split; [reflexivity|].
  apply (decode_hex_error toy_hex_int H [Byte.x01] "-"%char "1"%char
           ["f"; "f"]%char); reflexivity.
Defined.

(** ** Edge cases of [select_outputs] and [generate_merkle_root] *)

(** With a zero target and at least one candidate, the greedy selection
    still spends one output: a smallest one, whose whole value is the
    change. *)
Theorem select_outputs_zero_target (unspent : output_info_list)
    (Hvals : u64_values unspent = true) (Hne : unspent <> []) :
  exists c, In c unspent
    /\ (forall c', In c' unspent -> info_value c <= info_value c')
    /\ select_outputs unspent 0 greedy
       = returned (mk_select_outputs_result [point c] (info_value c)).
Proof.
  pose proof (u64_values_nonneg _ Hvals) as Hnn.
  unfold nonneg_values in Hnn. rewrite Forall_forall in Hnn.
  destruct unspent as [|u rest]; [congruence|].
  destruct (select_outputs_greater (u :: rest) 0) as [c [Hc [_ [Hmin Hsel]]]].
  { exists u. split; [left; reflexivity|]. apply Hnn. left. reflexivity. }
  exists c. split; [exact Hc|]. split.
  - intros c' Hc'. apply Hmin; [exact Hc'|]. apply Hnn, Hc'.
  - rewrite Hsel. pose proof (u64_values_bound _ _ Hvals Hc) as B.
    unfold is_u64 in B. rewrite Z.sub_0_r, wrap64_small by lia. reflexivity.
Qed.

Lemma select_outputs_zero_target_witness :
  u64_values [info Byte.x01 30; info Byte.x02 40] = true
  /\ [info Byte.x01 30; info Byte.x02 40] <> []
  /\ exists c, In c [info Byte.x01 30; info Byte.x02 40]
       /\ (forall c', In c' [info Byte.x01 30; info Byte.x02 40] ->
                      info_value c <= info_value c')
       /\ select_outputs [info Byte.x01 30; info Byte.x02 40] 0 greedy
          = returned (mk_select_outputs_result [point c] (info_value c)).
Proof.
  split; [reflexivity|]. split; [discriminate|].
  apply select_outputs_zero_target; [reflexivity|discriminate].
Defined.

(** The merkle root of no transactions is the null digest; of one
    transaction, the hash of its serialization; of two, when digests are
    32 bytes wide, the hash of the two transaction hashes
    concatenated. *)
Theorem generate_merkle_root_small
    (satoshi_save : transaction_type -> data_chunk)
    (sha : data_chunk -> hash_digest)
    (Hw : forall d, length (sha d) = hash_digest_size) :
  generate_merkle_root satoshi_save sha [] = null_hash
  /\ (forall tx, generate_merkle_root satoshi_save sha [tx] = sha (satoshi_save tx))
  /\ (forall tx1 tx2, generate_merkle_root satoshi_save sha [tx1; tx2]
                      = sha (sha (satoshi_save tx1) ++ sha (satoshi_save tx2))).
Proof.
  split; [reflexivity|]. split; [reflexivity|].
  intros tx1 tx2. unfold generate_merkle_root. simpl.
  rewrite merkle_parent_concat by apply Hw. reflexivity.
Qed.

Lemma toy_hash_width (d : data_chunk) : length (toy_hash d) = hash_digest_size.
Proof.
  unfold toy_hash. rewrite length_firstn, length_app.
  unfold null_hash. rewrite repeat_length. lia.
Qed.

Lemma generate_merkle_root_small_witness :
  (forall d, length (toy_hash d) = hash_digest_size)
  /\ generate_merkle_root (fun _ => []) toy_hash [] = null_hash.
Proof.
  split; [exact toy_hash_width|].
  apply (generate_merkle_root_small (fun _ => []) toy_hash toy_hash_width).
Defined.
